(** * The upload store of [ui/src/state/storage/upload.ts]

    A shallow embedding of the zustand store [useFileStore], of the
    asynchronous dispatcher [upload] and of the two React hooks
    [useClient] and [useUploader], followed by the properties of the
    design document that can be stated over it.

    Conventions.
    - A JavaScript object used as a dictionary is a [gmap string _].
    - A string is a [string] that holds the UTF-8 bytes of the text;
      [Array.prototype.sort] without a comparator orders strings by
      UTF-16 code unit, which on these bytes is [code_unit_le].
    - An object that React compares with [Object.is] carries a number
      that tells which object it is ([config_id], [creds_id],
      [client_id]); two objects with the same fields and different
      numbers are different objects.
    - An operation that can raise returns a [result].
    - Everything that happens between two turns of the event loop is one
      [step]; every state handed to zustand's [set] is appended to the
      [observed] log, which is what a subscriber of the store sees. *)

From stdpp Require Import gmap strings list fin_maps sorting pretty.
From Stdlib Require Import ZArith Ascii.

Local Open Scope string_scope.
Local Open Scope Z_scope.

(** ** Values *)

Inductive result (A : Type) : Type :=
| Ok (a : A)
| Throw (e : string).
Arguments Ok {A} a.
Arguments Throw {A} e.

Definition is_Ok {A} (r : result A) : Prop :=
  match r with Ok _ => True | Throw _ => False end.

(** A settled promise. A rejection carries the text that
    [`${error.message}`] interpolates. *)
Inductive Settled (A : Type) : Type :=
| Resolved (a : A)
| Rejected (message : string).
Arguments Resolved {A} a.
Arguments Rejected {A} message.

(** JavaScript truthiness of a string. *)
Definition truthy (s : string) : bool := bool_decide (s ≠ "").

(** [a || b] on strings. *)
Definition or_else (a b : string) : string := if truthy a then a else b.

(** ** Data model (the types imported from [@/gear]) *)

Inductive Status := initial | loading | success | error.

Global Instance Status_eq_dec : EqDecision Status.
Proof. solve_decision. Defined.

Record File := { name : string; type : string; file_size : Z }.

Global Instance File_eq_dec : EqDecision File.
Proof. solve_decision. Defined.

(** One entry of [Uploader.files]. [uploadFiles] builds it with every
    field but [errorMessage]; [updateFile] on a key that is no longer in
    the mapping stores an object that has only [size] and [url], which is
    why [file], [key] and [status] are optional here. *)
Record Upload := {
  file : option File;
  key : option string;
  status : option Status;
  url : string;
  size : Z * Z;
  errorMessage : option string
}.

Global Instance Upload_eq_dec : EqDecision Upload.
Proof. solve_decision. Defined.

Inductive Service := presigned_url | credentials.

Global Instance Service_eq_dec : EqDecision Service.
Proof. solve_decision. Defined.

(** Only the fields this file reads. A field that is [undefined] and one
    that is [''] are both falsy and are both written [""]. [config_id]
    is the object itself: [Object.is] holds of two configurations when
    they have the same [config_id], whatever their fields. *)
Record StorageConfiguration := {
  config_id : nat;
  service : Service;
  presignedUrl : string;
  currentBucket : string;
  publicUrlBase : string;
  region : string
}.

Global Instance StorageConfiguration_eq_dec : EqDecision StorageConfiguration.
Proof. solve_decision. Defined.

(** [creds_id] is the object itself, as [config_id]. *)
Record StorageCredentials := {
  creds_id : nat;
  accessKeyId : string;
  endpoint : string;
  secretAccessKey : string
}.

Global Instance StorageCredentials_eq_dec : EqDecision StorageCredentials.
Proof. solve_decision. Defined.

(** The argument [new S3Client] is built from, and [client_id], the
    object itself: every [new S3Client] gives an object that no earlier
    one is. *)
Record S3Client := {
  client_id : nat;
  client_protocol : string;
  client_hostname : string;
  client_path : string;
  client_region : string;
  client_credentials : StorageCredentials;
  forcePathStyle : bool
}.

Global Instance S3Client_eq_dec : EqDecision S3Client.
Proof. solve_decision. Defined.

(** An [Uploader] is its [files] and five closures over [key] and
    [config]; the closures are represented by what they capture. *)
Record Uploader := {
  files : gmap string Upload;
  bound_key : string;
  bound_config : StorageConfiguration
}.

Record FileStore := {
  client : option S3Client;
  uploaders : gmap string Uploader
}.

(** ** What the platform and the imported packages provide *)

Record Url := { protocol : string; host : string; pathname : string }.

Record Platform := {
  (** [window.ship] *)
  ship : string;
  (** [deSig(formatDa(unixToDa(t)))] of [@urbit/aura] *)
  da : Z → string;
  (** [new URL(s)]; [None] when it raises *)
  new_URL : string → option Url;
  (** [new URL(key, base).toString()]; [None] when it raises *)
  new_URL_base : string → string → option string
}.

(** ** The event-loop state *)

(** A dispatch suspended at a promise. The [url] of [AwaitToken] is
    [`${presignedUrl}/${key}`]; the one of [AwaitPut] is the url the PUT
    is sent to, which has the token. *)
Inductive Task :=
| AwaitToken (uploader key url : string)
| AwaitPut (uploader key url : string)
| AwaitSigned (uploader key : string)
| AwaitSend (uploader key url : string)
| AwaitImage (uploader key url : string).

Record World := {
  store : FileStore;
  (** every state passed to [set], most recent first *)
  observed : list FileStore;
  pending : list Task;
  (** rejections no handler is attached to, most recent first *)
  unhandled : list string
}.

Definition init_store : FileStore := {| client := None; uploaders := ∅ |}.

Definition init : World :=
  {| store := init_store; observed := []; pending := []; unhandled := [] |}.

(** [set(next)] *)
Definition publish (s : FileStore) (w : World) : World :=
  {| store := s; observed := s :: observed w;
     pending := pending w; unhandled := unhandled w |}.

Definition spawn (t : Task) (w : World) : World :=
  {| store := store w; observed := observed w;
     pending := pending w ++ [t]; unhandled := unhandled w |}.

Definition reject (e : string) (w : World) : World :=
  {| store := store w; observed := observed w;
     pending := pending w; unhandled := e :: unhandled w |}.

Definition settle_at (i : nat) (w : World) : World :=
  {| store := store w; observed := observed w;
     pending := delete i (pending w); unhandled := unhandled w |}.

(** Run a store operation and publish its result. An exception leaves the
    store as it was: immer discards the draft. *)
Definition commit (op : FileStore → result FileStore) (w : World) : result World :=
  match op (store w) with
  | Ok s => Ok (publish s w)
  | Throw e => Throw e
  end.

(** ** Record updates *)

Definition with_status (st : Status) (f : Upload) : Upload :=
  {| file := file f; key := key f; status := Some st; url := url f;
     size := size f; errorMessage := errorMessage f |}.

Definition with_errorMessage (msg : string) (f : Upload) : Upload :=
  {| file := file f; key := key f; status := status f; url := url f;
     size := size f; errorMessage := Some msg |}.

(** [{ ...current, ...{ size, url } }] *)
Definition patch (current : option Upload) (sz : Z * Z) (u : string) : Upload :=
  match current with
  | Some f =>
      {| file := file f; key := key f; status := status f; url := u;
         size := sz; errorMessage := errorMessage f |}
  | None =>
      {| file := None; key := None; status := None; url := u;
         size := sz; errorMessage := None |}
  end.

Definition with_files (fs : gmap string Upload) (u : Uploader) : Uploader :=
  {| files := fs; bound_key := bound_key u; bound_config := bound_config u |}.

Definition with_uploader (k : string) (u : Uploader) (s : FileStore) : FileStore :=
  {| client := client s; uploaders := <[k := u]> (uploaders s) |}.

Definition with_client (c : S3Client) (s : FileStore) : FileStore :=
  {| client := Some c; uploaders := uploaders s |}.

(** ** The store *)

Definition TypeError_undefined : string :=
  "TypeError: Cannot read properties of undefined".

(** [update]. Every [updateFn] of this file starts by reading or writing
    [draft.files], which raises when [draft.uploaders[key]] is
    [undefined]. *)
Definition update (k : string) (updateFn : Uploader → result Uploader)
    (s : FileStore) : result FileStore :=
  match uploaders s !! k with
  | None => Throw TypeError_undefined
  | Some draft =>
      match updateFn draft with
      | Ok draft' => Ok (with_uploader k draft' s)
      | Throw e => Throw e
      end
  end.

Definition getUploader (k : string) (s : FileStore) : option Uploader :=
  uploaders s !! k.

Definition clear (uploader : string) : FileStore → result FileStore :=
  update uploader (λ draft, Ok (with_files ∅ draft)).

Definition updateFile (uploader fileKey : string) (sz : Z * Z) (u : string)
    : FileStore → result FileStore :=
  update uploader (λ draft,
    let current := files draft !! fileKey in
    Ok (with_files (<[fileKey := patch current sz u]> (files draft)) draft)).

Definition updateStatus (uploader fileKey : string) (st : Status)
    (msg : option string) : FileStore → result FileStore :=
  update uploader (λ draft,
    match files draft !! fileKey with
    | None => Throw TypeError_undefined
    | Some f =>
        let f1 := with_status st f in
        let f2 :=
          match msg with
          | Some m =>
              if bool_decide (st = error) && truthy m
              then with_errorMessage m f1 else f1
          | None => f1
          end in
        Ok (with_files (<[fileKey := f2]> (files draft)) draft)
    end).

Definition removeByURL (uploader u : string) : FileStore → result FileStore :=
  update uploader (λ draft,
    Ok (with_files (filter (λ kf, url kf.2 ≠ u) (files draft)) draft)).

(** ** The order of [Array.prototype.sort]

    [sort()] without a comparator compares the UTF-16 code units of the
    keys. Comparing the bytes of well-formed UTF-8 text compares its
    code points, and that is comparing code units except in one case: a
    character outside the basic plane (first byte [0xF0] to [0xF4]; in
    UTF-16 a surrogate pair, whose first unit is below [0xE000]) against
    a character from U+E000 to U+FFFF (first byte [0xEE] or [0xEF]). By
    code unit the first of the two is the smaller, by byte the second.
    [unit_rank] moves the bytes [0xEE] and [0xEF] above all others (no
    byte above [0xF4] occurs in UTF-8) and keeps the order of the rest,
    so that comparing the ranks of the bytes is comparing the code
    units. *)
Definition unit_rank (c : ascii) : ascii :=
  let n := N_of_ascii c in
  if (n <? 238)%N then c
  else if (n <? 240)%N then ascii_of_N (n + 16)
  else ascii_of_N (n - 2).

Fixpoint ranks (s : string) : string :=
  match s with
  | "" => ""
  | String c s' => String (unit_rank c) (ranks s')
  end.

(** [a] does not sort after [b]. *)
Definition code_unit_le (a b : string) : Prop := String.le (ranks a) (ranks b).

Global Instance code_unit_le_dec : RelDecision code_unit_le.
Proof. intros a b. unfold code_unit_le. apply _. Defined.

(** [_.last] *)
Definition last_key (l : list string) : option string := last l.

Definition getMostRecent (k : string) (s : FileStore) : option Upload :=
  match uploaders s !! k with
  | None => None
  | Some uploader =>
      match last_key (merge_sort code_unit_le (fst <$> map_to_list (files uploader))) with
      | Some fileKey => if truthy fileKey then files uploader !! fileKey else None
      | None => None
      end
  end.

(** ** String helpers used by the source *)

(** [s.match(p)] for a pattern without metacharacters: [p] occurs in [s]. *)
Fixpoint includes (p s : string) : bool :=
  String.prefix p s ||
  match s with
  | "" => false
  | String _ s' => includes p s'
  end.

(** [s.slice(0, -1)]. The source applies it to the protocol of a URL,
    whose last character is [":"], one byte and one code unit. *)
Fixpoint slice_0_m1 (s : string) : string :=
  match s with
  | "" => ""
  | String c s' => match s' with "" => "" | _ => String c (slice_0_m1 s') end
  end.

(** [s.split('?')[0]] *)
Fixpoint split_query_0 (s : string) : string :=
  match s with
  | "" => ""
  | String c s' =>
      if bool_decide (c = "?"%char) then "" else String c (split_query_0 s')
  end.

(** [/https?:\/\//] is not anchored. *)
Definition prefixEndpoint (e : string) : string :=
  if includes "http://" e || includes "https://" e then e else "https://" +:+ e.

Definition tlon_error (m : string) : string :=
  "Tlon Hosting upload error: " +:+ m +:+ ", contact support if it persists.".

Definition s3_error (m : string) : string :=
  "S3 upload error: " +:+ m +:+ ", check your S3 configuration.".

(** What the environment answers to a suspended dispatch. *)
Record Response := { resp_status : Z; resp_text : Settled string }.

(** The proxy's answer to the PUT and, for the follow-up
    [fetch(url)] of the url without the token, then [.json()], the
    decoded url or the first rejection. *)
Record PutExchange := { put_response : Settled Response; get_json : Settled string }.

Inductive Answer :=
| Token (r : Settled string)
| Put (x : PutExchange)
| Signed (r : Settled string)
| Sent (r : Settled unit)
| ImageSize (r : Settled (Z * Z)).

(** The [.then] callback of the PUT up to [updateStatus]: the resolved
    file url, or the message of what it throws. *)
Definition put_then (x : PutExchange) : Settled string :=
  match put_response x with
  | Rejected m => Rejected m
  | Resolved response =>
      if bool_decide (resp_status response ≠ 200)
      then match resp_text response with
           | Resolved body => Rejected (or_else body "Incorrect response status")
           | Rejected m => Rejected m
           end
      else get_json x
  end.

Inductive Event :=
| UploadFiles (uploader : string) (fs : option (list (File * Z)))
    (config : StorageConfiguration)
| Clear (uploader : string)
| RemoveByURL (uploader u : string)
| CreateClient (creds : StorageCredentials) (rgn : string)
| UploaderEffect (k : string) (cl : option S3Client)
    (configuration : StorageConfiguration)
| Settle (i : nat) (a : Answer).

(** The number of the next [new S3Client]: the clients that are put in
    the slot one after the other are numbered upwards, so a client built
    later is never one that was in the slot before. *)
Definition new_client_id (s : FileStore) : nat :=
  match client s with
  | Some c => S (client_id c)
  | None => 0%nat
  end.

Section Store.

Variable P : Platform.

Definition createClient (creds : StorageCredentials) (rgn : string)
    (w : World) : result World :=
  match new_URL P (prefixEndpoint (endpoint creds)) with
  | None => Throw "TypeError: Invalid URL"
  | Some e =>
      Ok (publish (with_client
            {| client_id := new_client_id (store w);
               client_protocol := slice_0_m1 (protocol e);
               client_hostname := host e;
               client_path := or_else (pathname e) "/";
               client_region := or_else rgn "us-east-1";
               client_credentials := creds;
               forcePathStyle := true |} (store w)) w)
  end.

(** The template literal of [uploadFiles]; [t] is what
    [new Date().getTime()] returns when the [map] callback reaches the
    file. *)
Definition make_key (f : File) (t : Z) : string :=
  ship P +:+ "/" +:+ da P t +:+ "-" +:+ name f.

Definition new_upload (ft : File * Z) : Upload :=
  {| file := Some ft.1; key := Some (make_key ft.1 ft.2);
     status := Some initial; url := ""; size := (0, 0);
     errorMessage := None |}.

(** A property key: [undefined] is coerced to ["undefined"]. *)
Definition key_of (f : Upload) : string := default "undefined" (key f).

(** [_.keyBy(fileList, 'key')]: a later element replaces an earlier one
    with the same key. *)
Definition keyBy (l : list Upload) : gmap string Upload :=
  foldl (λ m f, <[key_of f := f]> m) ∅ l.

(** The [.catch] handler of either strategy; a handler that raises leaves
    a rejected promise nobody listens to. *)
Definition on_error (prefix : string → string) (uploader k m : string)
    (w : World) : World :=
  match commit (updateStatus uploader k error (Some (prefix m))) w with
  | Ok w' => w'
  | Throw e => reject e w
  end.

(** The tail of either [.then] callback: [updateStatus(.., 'success')],
    then [imageSize(url).then(..)] is started and not waited for. An
    exception goes to the [.catch] that follows. *)
Definition on_success (prefix : string → string) (uploader k u : string)
    (w : World) : World :=
  match commit (updateStatus uploader k success None) w with
  | Ok w' => spawn (AwaitImage uploader k u) w'
  | Throw e => on_error prefix uploader k e w
  end.

(** The block guarded by [config.service === 'credentials' && client]. *)
Definition upload_credentials (uploader k : string)
    (config : StorageConfiguration) (w : World) : World :=
  if truthy (publicUrlBase config)
  then match new_URL_base P k (publicUrlBase config) with
       | Some u => spawn (AwaitSend uploader k u) w
       | None => reject "TypeError: Invalid URL" w
       end
  else spawn (AwaitSigned uploader k) w.

(** [upload], up to its first suspension. It is an [async] function whose
    promise [uploadFiles] drops, so an exception ends up in [unhandled].
    The two guarded blocks test [config.service] against different
    constants, so at most one of them runs and they are written as
    alternatives. *)
Definition upload (uploader : string) (up : Upload)
    (config : StorageConfiguration) (w : World) : World :=
  let cl := client (store w) in
  let k := key_of up in
  match commit (updateStatus uploader k loading None) w with
  | Throw e => reject e w
  | Ok w1 =>
      if bool_decide (service config = presigned_url) && truthy (presignedUrl config)
      then spawn (AwaitToken uploader k (presignedUrl config +:+ "/" +:+ k)) w1
      else if bool_decide (service config = credentials) && bool_decide (is_Some cl)
      then upload_credentials uploader k config w1
      else w1
  end.

Definition uploadFiles (uploader : string) (fs : option (list (File * Z)))
    (config : StorageConfiguration) (w : World) : result World :=
  match fs with
  | None => Ok w
  | Some fs =>
      let fileList := new_upload <$> fs in
      let newFiles := keyBy fileList in
      match commit (update uploader (λ draft,
                      Ok (with_files (newFiles ∪ files draft) draft))) w with
      | Throw e => Throw e
      | Ok w1 => Ok (foldl (λ w' f, upload uploader f config w') w1 fileList)
      end
  end.

(** The continuation of a suspended dispatch; [None] when the answer is
    not one the task waits for. *)
Definition resume (t : Task) (a : Answer) (w : World) : option World :=
  match t, a with
  | AwaitToken uploader k u, Token (Resolved token) =>
      Some (spawn (AwaitPut uploader k (u +:+ "?token=" +:+ token)) w)
  | AwaitToken _ _ _, Token (Rejected m) => Some (reject m w)
  | AwaitPut uploader k _, Put x =>
      Some match put_then x with
           | Resolved fileUrl => on_success tlon_error uploader k fileUrl w
           | Rejected m => on_error tlon_error uploader k m w
           end
  | AwaitSigned uploader k, Signed (Resolved res) =>
      Some (spawn (AwaitSend uploader k (split_query_0 res)) w)
  | AwaitSigned _ _, Signed (Rejected m) => Some (reject m w)
  | AwaitSend uploader k u, Sent (Resolved _) =>
      Some (on_success s3_error uploader k u w)
  | AwaitSend uploader k _, Sent (Rejected m) =>
      Some (on_error s3_error uploader k m w)
  | AwaitImage uploader k u, ImageSize (Resolved s) =>
      Some match commit (updateFile uploader k s u) w with
           | Ok w' => w'
           | Throw e => reject e w
           end
  | AwaitImage _ _ _, ImageSize (Rejected m) => Some (reject m w)
  | _, _ => None
  end.

Definition settle (i : nat) (a : Answer) (w : World) : World :=
  match pending w !! i with
  | None => w
  | Some t => default w (resume t a (settle_at i w))
  end.

(** [emptyUploader] *)
Definition emptyUploader (k : string) (config : StorageConfiguration) : Uploader :=
  {| files := ∅; bound_key := k; bound_config := config |}.

(** The body of the effect of [useUploader], over the [client] and
    [configuration] of the render it belongs to. *)
Definition useUploader_effect (k : string) (cl : option S3Client)
    (configuration : StorageConfiguration) (w : World) : World :=
  if (bool_decide (is_Some cl) && bool_decide (service configuration = credentials))
     || (bool_decide (service configuration = presigned_url)
         && truthy (presignedUrl configuration))
  then publish (with_uploader k (emptyUploader k configuration) (store w)) w
  else w.

(** An exception of a synchronous store call goes to its caller and the
    world stays as it was. *)
Definition returned (r : result World) (w : World) : World :=
  match r with Ok w' => w' | Throw _ => w end.

Definition step (w : World) (e : Event) : World :=
  match e with
  | UploadFiles uploader fs config => returned (uploadFiles uploader fs config w) w
  | Clear uploader => returned (commit (clear uploader) w) w
  | RemoveByURL uploader u => returned (commit (removeByURL uploader u) w) w
  | CreateClient creds rgn => returned (createClient creds rgn w) w
  | UploaderEffect k cl configuration => useUploader_effect k cl configuration w
  | Settle i a => settle i a w
  end.

Definition run (w : World) (es : list Event) : World := foldl step w es.

(** ** The hooks *)

(** What one render of [useClient] closes over. *)
Record ClientRender := {
  r_credentials : option StorageCredentials;
  r_configuration : StorageConfiguration;
  r_client : option S3Client;
  r_hasCredentials : bool
}.

Global Instance ClientRender_eq_dec : EqDecision ClientRender.
Proof. solve_decision. Defined.

(** The [useState] cell of [useClient] and the render whose effects ran
    last. *)
Record ClientHook := {
  hasCredentials : bool;
  committed : option ClientRender
}.

Definition mount_client : ClientHook :=
  {| hasCredentials := false; committed := None |}.

(** A render of [useClient]; the hook returns [r_client]. *)
Definition useClient (creds : option StorageCredentials)
    (configuration : StorageConfiguration) (h : ClientHook) (w : World)
    : ClientRender :=
  {| r_credentials := creds; r_configuration := configuration;
     r_client := client (store w); r_hasCredentials := hasCredentials h |}.

Definition hasCreds (creds : option StorageCredentials)
    (configuration : StorageConfiguration) : bool :=
  bool_decide (service configuration = credentials) &&
  match creds with
  | Some c => truthy (accessKeyId c) && truthy (endpoint c) && truthy (secretAccessKey c)
  | None => false
  end.

(** [initClient] is [async] and nobody waits for it. *)
Definition initClient (r : ClientRender) (w : World) : World :=
  match r_credentials r with
  | Some c =>
      match createClient c (region (r_configuration r)) w with
      | Ok w' => w'
      | Throw e => reject e w
      end
  | None => w
  end.

(** React runs an effect again when one of its dependencies is not
    [Object.is] the one of the previous render: an object is compared by
    what object it is, a string or a boolean by its value.
    [[credentials, configuration]]: *)
Definition deps1 (r : ClientRender) : option nat * nat :=
  (creds_id <$> r_credentials r, config_id (r_configuration r)).

(** [[client, hasCredentials, initClient]]; [useCallback] gives the
    [initClient] of the previous render unless [credentials] or
    [configuration] is another object ([createClient] is the same
    function throughout). *)
Definition deps2 (r : ClientRender) : option nat * bool * (option nat * nat) :=
  (client_id <$> r_client r, r_hasCredentials r, deps1 r).

(** The effects of [useClient] after render [r] is committed. *)
Definition useClient_effects (r : ClientRender) (h : ClientHook) (w : World)
    : ClientHook * World :=
  let run1 := bool_decide (deps1 <$> committed h ≠ Some (deps1 r)) in
  let run2 := bool_decide (deps2 <$> committed h ≠ Some (deps2 r)) in
  let hc := if run1 && hasCreds (r_credentials r) (r_configuration r)
            then true else hasCredentials h in
  let w' := if run2 && r_hasCredentials r && negb (bool_decide (is_Some (r_client r)))
            then initClient r w else w in
  ({| hasCredentials := hc; committed := Some r |}, w').

Record UploaderRender := {
  u_key : string;
  u_client : ClientRender
}.

Global Instance UploaderRender_eq_dec : EqDecision UploaderRender.
Proof. solve_decision. Defined.

(** The state of [useClient] and the dependencies of the effect of
    [useUploader] at the previous render. *)
Record UploaderHook := {
  client_hook : ClientHook;
  u_committed : option (string * option nat * nat)
}.

Definition mount_uploader : UploaderHook :=
  {| client_hook := mount_client; u_committed := None |}.

(** A render of [useUploader(key)]: what it closes over and what it
    returns. *)
Definition useUploader (k : string) (creds : option StorageCredentials)
    (configuration : StorageConfiguration) (h : UploaderHook) (w : World)
    : UploaderRender * option Uploader :=
  ({| u_key := k; u_client := useClient creds configuration (client_hook h) w |},
   uploaders (store w) !! k).

(** [[client, configuration, key]]: the key by value, the client and the
    configuration by what object they are. *)
Definition u_deps (r : UploaderRender) : string * option nat * nat :=
  (u_key r, client_id <$> r_client (u_client r),
   config_id (r_configuration (u_client r))).

(** The effects after that render is committed: those of [useClient],
    then the one of [useUploader] when a dependency changed. *)
Definition useUploader_effects (r : UploaderRender) (h : UploaderHook)
    (w : World) : UploaderHook * World :=
  let '(ch, w1) := useClient_effects (u_client r) (client_hook h) w in
  let w2 := if bool_decide (u_committed h ≠ Some (u_deps r))
            then useUploader_effect (u_key r) (r_client (u_client r))
                   (r_configuration (u_client r)) w1
            else w1 in
  ({| client_hook := ch; u_committed := Some (u_deps r) |}, w2).

End Store.

(** ** Reading the store *)

Definition lookup_file (s : FileStore) (uploader k : string) : option Upload :=
  uploaders s !! uploader ≫= λ up, files up !! k.

Definition status_of (s : FileStore) (uploader k : string) : option Status :=
  lookup_file s uploader k ≫= status.

(** ** Assumptions on the rendering of a timestamp *)

(** No ["-"] occurs in [s], so the ["-"] that separates the timestamp from
    the file name is the first one after the ["/"]. *)
Fixpoint dash_free (s : string) : bool :=
  match s with
  | "" => true
  | String c s' => negb (bool_decide (c = "-"%char)) && dash_free s'
  end.


(** ** A concrete platform and concrete inputs, for the examples *)

Definition demo : Platform :=
  {| ship := "~zod";
     da := λ t, pretty t;
     new_URL := λ s, Some {| protocol := "https:"; host := s; pathname := "" |};
     new_URL_base := λ k base, Some (base +:+ k) |}.

Definition proxy_config : StorageConfiguration :=
  {| config_id := 1; service := presigned_url;
     presignedUrl := "https://proxy.example";
     currentBucket := ""; publicUrlBase := ""; region := "" |}.


Definition unset_proxy_config : StorageConfiguration :=
  {| config_id := 2; service := presigned_url; presignedUrl := "";
     currentBucket := ""; publicUrlBase := ""; region := "" |}.

Definition s3_config : StorageConfiguration :=
  {| config_id := 3; service := credentials; presignedUrl := "";
     currentBucket := "att"; publicUrlBase := "https://cdn.example/";
     region := "" |}.

Definition creds_a : StorageCredentials :=
  {| creds_id := 1; accessKeyId := "AKIA-A"; endpoint := "s3.example";
     secretAccessKey := "a" |}.

Definition creds_b : StorageCredentials :=
  {| creds_id := 2; accessKeyId := "AKIA-B"; endpoint := "other.example";
     secretAccessKey := "b" |}.

Definition photo : File :=
  {| name := "photo.png"; type := "image/png"; file_size := 2048 |}.

Definition clip : File :=
  {| name := "clip.mp4"; type := "video/mp4"; file_size := 4096 |}.

Definition photo_key : string := "~zod/1000-photo.png".

(** Two names that bytes and code units order differently. U+1F600 is
    [F0 9F 98 80] in UTF-8 and [D83D DE00] in UTF-16; U+FF21 is
    [EF BC A1] in UTF-8 and [FF21] in UTF-16. *)
Definition face : File :=
  {| name := String "240"%char (String "159"%char (String "152"%char
               (String "128"%char ".png")));
     type := "image/png"; file_size := 1 |}.

Definition wide_a : File :=
  {| name := String "239"%char (String "188"%char (String "161"%char ".png"));
     type := "image/png"; file_size := 2 |}.

Definition ok_200 (u : string) : Answer :=
  Put {| put_response := Resolved {| resp_status := 200; resp_text := Resolved "" |};
         get_json := Resolved u |}.

Definition status_500 (body : string) : Answer :=
  Put {| put_response := Resolved {| resp_status := 500; resp_text := Resolved body |};
         get_json := Rejected "" |}.

(** One uploader ["chat"] on the proxy strategy and one file handed to
    it, suspended at the token request. *)
Definition one_in_flight : World :=
  run demo init
    [UploaderEffect "chat" None proxy_config;
     UploadFiles "chat" (Some [(photo, 1000)]) proxy_config].

(** One file handed to ["chat"] on the proxy strategy, whose PUT the
    proxy answers with status 500. *)
Definition refused_upload : list Event :=
  [UploaderEffect "chat" None proxy_config;
   UploadFiles "chat" (Some [(photo, 1000)]) proxy_config;
   Settle 0 (Token (Resolved "secret"));
   Settle 0 (status_500 "quota exceeded")].

(** The direct strategy without a [publicUrlBase]. *)
Definition signed_config : StorageConfiguration :=
  {| config_id := 4; service := credentials; presignedUrl := "";
     currentBucket := "att"; publicUrlBase := ""; region := "" |}.

(** A client in the slot and one uploader ["chat"] on the direct
    strategy with the given configuration. *)
Definition direct_ready (config : StorageConfiguration) : World :=
  let w := step demo init (CreateClient creds_a "") in
  step demo w (UploaderEffect "chat" (client (store w)) config).

(** ** Notions the properties are stated with *)

(** The keys [uploadFiles] gives to a batch, in order. *)
Definition batch_keys (P : Platform) (fs : list (File * Z)) : list string :=
  key_of <$> (new_upload P <$> fs).

(** One render of [useClient] followed by its effects. *)
Definition client_pass (P : Platform) (creds : option StorageCredentials)
    (configuration : StorageConfiguration) (hw : ClientHook * World)
    : ClientHook * World :=
  useClient_effects P (useClient creds configuration hw.1 hw.2) hw.1 hw.2.

(** The condition of the effect of [useUploader]. *)
Definition prerequisites (cl : option S3Client) (configuration : StorageConfiguration)
    : Prop :=
  (is_Some cl ∧ service configuration = credentials)
  ∨ (service configuration = presigned_url ∧ presignedUrl configuration ≠ "").

(** One render of [useUploader] followed by its effects. *)
Definition uploader_pass (P : Platform) (k : string)
    (creds : option StorageCredentials) (configuration : StorageConfiguration)
    (hw : UploaderHook * World) : UploaderHook * World :=
  useUploader_effects P (useUploader k creds configuration hw.1 hw.2).1 hw.1 hw.2.

(** The statuses of the record under [k] of [uploader] in the states the
    store went through, oldest first; a state in which the record is not
    there, or has no [status], contributes nothing. *)
Definition history (w : World) (uploader k : string) : list Status :=
  reverse (omap (λ s, status_of s uploader k) (observed w)).

(** How many files of a submission get the key [k] in [uploader]. *)
Definition generated (P : Platform) (uploader k : string) (e : Event) : nat :=
  match e with
  | UploadFiles uploader' (Some fs) _ =>
      if decide (uploader' = uploader)
      then length (filter (λ k', k' = k) (key_of <$> (new_upload P <$> fs)))
      else 0%nat
  | _ => 0%nat
  end.

Definition generations (P : Platform) (uploader k : string) (es : list Event) : nat :=
  sum_list_with (generated P uploader k) es.

(** The suspended dispatches that will call [updateStatus] on the record. *)
Definition writes_to (uploader k : string) (t : Task) : bool :=
  match t with
  | AwaitToken u' k' _ | AwaitPut u' k' _ | AwaitSigned u' k' | AwaitSend u' k' _ =>
      bool_decide (u' = uploader ∧ k' = k)
  | AwaitImage _ _ _ => false
  end.

Definition count_writers (uploader k : string) (l : list Task) : nat :=
  sum_list_with (λ t, if writes_to uploader k t then 1%nat else 0%nat) l.

Definition next_ok (a b : Status) : Prop :=
  a = b ∨ (a = initial ∧ b = loading) ∨ (a = loading ∧ (b = success ∨ b = error)).

(** A history read from its most recent status backwards. *)
Inductive shape : list Status → Prop :=
| shape_nil : shape []
| shape_first : shape [initial]
| shape_push a b h : shape (a :: h) → next_ok a b → shape (b :: a :: h).

Definition push (o : option Status) (h : list Status) : list Status :=
  match o with Some st => st :: h | None => h end.

Definition core (h : list Status) (c : option Status) : Prop :=
  shape h ∧ ∀ st, c = Some st → head h = Some st.

Definition inv (fresh : bool) (h : list Status) (c : option Status) (n : nat) : Prop :=
  core h c ∧ (n ≤ 1)%nat ∧ (n = 1%nat → head h = Some loading)
  ∧ (fresh = true → h = [] ∧ n = 0%nat).

(** The state right after the record is seeded. *)
Definition seeded (h : list Status) (c : option Status) (n : nat) : Prop :=
  core h c ∧ head h = Some initial ∧ n = 0%nat.

(** What holds of the record under [k0] of [u0] along a run; [fresh] says
    that its key has not been given out yet. *)
Definition Inv_at (u0 k0 : string) (fresh : bool) (w : World) : Prop :=
  inv fresh (omap (λ s, status_of s u0 k0) (observed w))
    (status_of (store w) u0 k0) (count_writers u0 k0 (pending w)).

Definition Seeded_at (u0 k0 : string) (w : World) : Prop :=
  seeded (omap (λ s, status_of s u0 k0) (observed w))
    (status_of (store w) u0 k0) (count_writers u0 k0 (pending w)).

(** How many of the files get the key [k0] in the uploader [u0]. *)
Definition own_at (u0 k0 : string) (uploader : string) (l : list Upload) : nat :=
  if decide (uploader = u0) then length (filter (λ k', k' = k0) (key_of <$> l))
  else 0%nat.




(** ["?"] does not occur in [s]. *)
Fixpoint query_free (s : string) : bool :=
  match s with
  | "" => true
  | String c s' => negb (bool_decide (c = "?"%char)) && query_free s'
  end.

(** A message as one of the two [.catch] handlers builds it. *)
Definition backend_message (m : string) : Prop :=
  ∃ x, m = tlon_error x ∨ m = s3_error x.

(** What holds of a record stored under [k]: it has both [key] and
    [file], the key being [k] and made from that file, or neither; in
    status [error] it has a message; a message it has comes from a
    [.catch] handler. *)
Definition record_ok (P : Platform) (k : string) (r : Upload) : Prop :=
  ((key r = Some k ∧ is_Some (status r)
    ∧ ∃ f t, file r = Some f ∧ k = make_key P f t)
   ∨ (key r = None ∧ file r = None))
  ∧ (status r = Some error → is_Some (errorMessage r))
  ∧ (∀ m, errorMessage r = Some m → backend_message m ∧ m ≠ "").

Definition records_ok (P : Platform) (s : FileStore) : Prop :=
  ∀ uploader up k r,
    uploaders s !! uploader = Some up → files up !! k = Some r → record_ok P k r.

(** The closures of an uploader are bound to the key it is stored under. *)
Definition bindings_ok (s : FileStore) : Prop :=
  ∀ uploader up, uploaders s !! uploader = Some up → bound_key up = uploader.

Definition Sound (P : Platform) (w : World) : Prop :=
  records_ok P (store w) ∧ bindings_ok (store w).

(** [n] renders of one component that calls [useUploader(k)], each
    followed by its effects. *)
Definition passes (P : Platform) (k : string) (creds : option StorageCredentials)
    (configuration : StorageConfiguration) (n : nat)
    (hw : UploaderHook * World) : UploaderHook * World :=
  Nat.iter n (uploader_pass P k creds configuration) hw.

(** The uploader an event replaces by an empty one. *)
Definition resets (e : Event) (k : string) : Prop :=
  match e with
  | UploaderEffect k' _ _ => k' = k
  | _ => False
  end.

(** The ways a store changes: the files of an existing uploader are
    replaced, a client is put in the slot, or an uploader for which [R]
    allows it is replaced by an empty one. *)
Inductive evolves (R : string → Prop) (s : FileStore) : FileStore → Prop :=
| evolves_refl : evolves R s s
| evolves_files s' k up fs :
    evolves R s s' → uploaders s' !! k = Some up →
    evolves R s (with_uploader k (with_files fs up) s')
| evolves_client s' c : evolves R s s' → evolves R s (with_client c s')
| evolves_reset s' k configuration :
    evolves R s s' → R k →
    evolves R s (with_uploader k (emptyUploader k configuration) s').

(** ** The store operations, one at a time *)

Lemma update_Ok k updateFn s s' :
  update k updateFn s = Ok s' ↔
  ∃ draft draft', uploaders s !! k = Some draft ∧ updateFn draft = Ok draft'
                  ∧ s' = with_uploader k draft' s.
Proof.
  unfold update. split.
  - destruct (uploaders s !! k) as [draft|]; [|done].
    destruct (updateFn draft) as [draft'|] eqn:E; [|done].
    intros [= <-]. by exists draft, draft'.
  - intros (draft & draft' & -> & -> & ->). done.
Qed.

Lemma lookup_file_with_uploader k up s uploader fileKey :
  lookup_file (with_uploader k up s) uploader fileKey =
  if decide (k = uploader) then files up !! fileKey else lookup_file s uploader fileKey.
Proof.
  unfold lookup_file, with_uploader; simpl.
  case_decide as E.
  - subst. by rewrite lookup_insert_eq.
  - by rewrite lookup_insert_ne.
Qed.

Lemma updateStatus_Ok uploader fileKey st msg s s' :
  updateStatus uploader fileKey st msg s = Ok s' →
  ∃ draft f f', uploaders s !! uploader = Some draft ∧ files draft !! fileKey = Some f
    ∧ status f' = Some st ∧ url f' = url f ∧ size f' = size f
    ∧ file f' = file f ∧ key f' = key f
    ∧ s' = with_uploader uploader (with_files (<[fileKey := f']> (files draft)) draft) s.
Proof.
  unfold updateStatus. rewrite update_Ok.
  intros (draft & draft' & Hd & Hf & ->).
  destruct (files draft !! fileKey) as [f|] eqn:E; [|done].
  injection Hf as <-.
  exists draft, f,
    (match msg with
     | Some m => if bool_decide (st = error) && truthy m
                 then with_errorMessage m (with_status st f) else with_status st f
     | None => with_status st f
     end).
  repeat split; try done; destruct msg as [m|]; try destruct (_ && _); done.
Qed.

Lemma updateStatus_present uploader fileKey st msg s :
  is_Ok (updateStatus uploader fileKey st msg s) ↔
  is_Some (lookup_file s uploader fileKey).
Proof.
  unfold updateStatus, update, lookup_file.
  destruct (uploaders s !! uploader) as [draft|]; simpl; [|by split; [|intros [? ?]]].
  destruct (files draft !! fileKey); simpl; [by split|by split; [|intros [? ?]]].
Qed.

(** ** [removeByURL] *)

Lemma removeByURL_Ok uploader u s up :
  uploaders s !! uploader = Some up →
  removeByURL uploader u s =
  Ok (with_uploader uploader
        (with_files (filter (λ kf, url kf.2 ≠ u) (files up)) up) s).
Proof. intros H. unfold removeByURL, update. by rewrite H. Qed.

(** C8, as the code has it: [removeByURL] keeps exactly the records whose
    stored [url] differs from [u] and touches nothing else; a record whose
    [url] is still [""] survives every call with a non-empty [u]. *)
Theorem removeByURL_exact (s : FileStore) (uploader u : string) (up : Uploader) :
  uploaders s !! uploader = Some up →
  ∃ s', removeByURL uploader u s = Ok s'
    ∧ (∀ k r, lookup_file s' uploader k = Some r ↔ files up !! k = Some r ∧ url r ≠ u)
    ∧ (u ≠ "" → ∀ k r, files up !! k = Some r → url r = "" →
         lookup_file s' uploader k = Some r)
    ∧ (∀ other, other ≠ uploader → uploaders s' !! other = uploaders s !! other)
    ∧ client s' = client s.
Proof.
  intros Hup. eexists. split; [by apply removeByURL_Ok|].
  assert (∀ k r, lookup_file (with_uploader uploader
             (with_files (filter (λ kf, url kf.2 ≠ u) (files up)) up) s) uploader k
             = Some r ↔ files up !! k = Some r ∧ url r ≠ u) as Hiff.
  { intros k r. rewrite lookup_file_with_uploader, decide_True by done.
    simpl. by rewrite map_lookup_filter_Some. }
  split; [exact Hiff|]. split; [|split; [|done]].
  - intros Hu k r Hk Hr. apply Hiff. split; [done|]. by rewrite Hr.
  - intros other Hne. simpl. by rewrite lookup_insert_ne.
Qed.

Lemma removeByURL_exact_witness :
  ∃ up, uploaders (store one_in_flight) !! "chat" = Some up
    ∧ ∃ s', removeByURL "chat" "https://cdn.example/a.png" (store one_in_flight) = Ok s'
        ∧ status_of s' "chat" photo_key = Some loading.
Proof.
  assert (∃ up, uploaders (store one_in_flight) !! "chat" = Some up) as [up Hup].
  { vm_compute. eauto. }
  exists up. split; [exact Hup|].
  destruct (removeByURL_exact (store one_in_flight) "chat"
              "https://cdn.example/a.png" up Hup) as (s' & Hs' & _ & Hkeep & _).
  exists s'. split; [exact Hs'|].
  assert (∃ r, files up !! photo_key = Some r ∧ url r = "" ∧ status r = Some loading)
    as (r & Hr & Hurl & Hst).
  { revert Hup. vm_compute. intros [= <-]. eexists. split; [reflexivity|]. by split. }
  unfold status_of. rewrite (Hkeep ltac:(done) _ _ Hr Hurl). exact Hst.
Defined.

(** C8 as stated fails for [u = ""]: the record of a transfer that has
    not finished has [url = ""] and [removeByURL(.., "")] removes it. *)
Lemma removeByURL_empty_drops_unfinished :
  (∃ r, lookup_file (store one_in_flight) "chat" photo_key = Some r
        ∧ url r = "" ∧ status r = Some loading)
  ∧ ∃ s', removeByURL "chat" "" (store one_in_flight) = Ok s'
          ∧ lookup_file s' "chat" photo_key = None.
Proof.
  split.
  - eexists. split; [vm_compute; reflexivity|]. by split.
  - eexists. split; vm_compute; reflexivity.
Qed.

(** ** Strings *)

Lemma dash_free_split a b x y :
  dash_free a = true → dash_free b = true →
  a +:+ "-" +:+ x = b +:+ "-" +:+ y → a = b ∧ x = y.
Proof.
  revert b. induction a as [|c a IH]; intros [|d b]; cbn.
  - intros _ _ H. by simplify_eq.
  - intros _ Hb H. exfalso. injection H as <- _. by rewrite bool_decide_true in Hb.
  - intros Ha _ H. exfalso. injection H as -> _. by rewrite bool_decide_true in Ha.
  - intros [_ Ha]%andb_true_iff [_ Hb]%andb_true_iff H. injection H as -> H.
    destruct (IH b Ha Hb H) as [-> ->]; done.
Qed.


Lemma unit_rank_N (c : ascii) :
  N_of_ascii (unit_rank c)
  = (if N_of_ascii c <? 238 then N_of_ascii c
     else if N_of_ascii c <? 240 then N_of_ascii c + 16 else N_of_ascii c - 2)%N.
Proof.
  pose proof (N_ascii_bounded c) as Hc. unfold unit_rank. cbv zeta.
  destruct (N.ltb_spec (N_of_ascii c) 238); [done|].
  destruct (N.ltb_spec (N_of_ascii c) 240); apply N_ascii_embedding; lia.
Qed.

Lemma unit_rank_inj (c1 c2 : ascii) : unit_rank c1 = unit_rank c2 → c1 = c2.
Proof.
  intros H. apply (f_equal N_of_ascii) in H. rewrite !unit_rank_N in H.
  pose proof (N_ascii_bounded c1). pose proof (N_ascii_bounded c2).
  rewrite <-(ascii_N_embedding c1), <-(ascii_N_embedding c2). f_equal.
  destruct (N.ltb_spec (N_of_ascii c1) 238), (N.ltb_spec (N_of_ascii c1) 240),
    (N.ltb_spec (N_of_ascii c2) 238), (N.ltb_spec (N_of_ascii c2) 240); lia.
Qed.

Lemma ranks_inj (a b : string) : ranks a = ranks b → a = b.
Proof.
  revert b. induction a as [|c a IH]; intros [|d b]; simpl; try done.
  intros [= Hc Hr]. f_equal; [by apply unit_rank_inj|by apply IH].
Qed.


Lemma code_unit_le_trans : Transitive code_unit_le.
Proof. intros a b c. unfold code_unit_le. apply transitivity. Qed.

Lemma code_unit_le_total : Total code_unit_le.
Proof. intros a b. unfold code_unit_le. apply total, _. Qed.

Lemma code_unit_le_refl (a : string) : code_unit_le a a.
Proof. by destruct (code_unit_le_total a a). Qed.

Lemma code_unit_le_antisym (a b : string) :
  code_unit_le a b → code_unit_le b a → a = b.
Proof.
  unfold code_unit_le. intros Hab Hba. apply ranks_inj.
  by apply (anti_symm String.le).
Qed.

(** The order on some characters: U+0061 before U+0062; a string before
    its extensions; U+D7FF ([ED 9F BF]) before U+10000 ([F0 90 80 80],
    units [D800 DC00]); U+10FFFF ([F4 8F BF BF], units [DBFF DFFF])
    before U+E000 ([EE 80 80]); U+1F600 before U+FF21, which the bytes
    have the other way round. *)
Lemma code_unit_le_examples :
  code_unit_le "a" "b" ∧ ¬ code_unit_le "b" "a"
  ∧ code_unit_le "ab" "abc" ∧ ¬ code_unit_le "abc" "ab"
  ∧ code_unit_le (String "237" (String "159" (String "191" "")))
      (String "240" (String "144" (String "128" (String "128" ""))))
  ∧ code_unit_le (String "244" (String "143" (String "191" (String "191" ""))))
      (String "238" (String "128" (String "128" "")))
  ∧ ¬ code_unit_le (String "238" (String "128" (String "128" "")))
        (String "244" (String "143" (String "191" (String "191" ""))))
  ∧ code_unit_le (name face) (name wide_a) ∧ ¬ code_unit_le (name wide_a) (name face)
  ∧ String.le (name wide_a) (name face).
Proof. repeat split; vm_compute; try exact I; by intros []. Qed.



Section Keys.

Variable P : Platform.

(** Two files get the same key exactly when they have the same name and
    their timestamps render the same. *)
Lemma make_key_eq (f1 f2 : File) (t1 t2 : Z) :
  dash_free (da P t1) = true → dash_free (da P t2) = true →
  make_key P f1 t1 = make_key P f2 t2 ↔ da P t1 = da P t2 ∧ name f1 = name f2.
Proof.
  intros H1 H2. unfold make_key. split.
  - intros H. apply (inj (String.app (ship P))) in H.
    apply (inj (String.app "/")) in H.
    by apply dash_free_split.
  - by intros [-> ->].
Qed.


Lemma NoDup_fmap_on {A B C} (f : A → B) (g : A → C) (l : list A) :
  (∀ x y, x ∈ l → y ∈ l → f x = f y ↔ g x = g y) →
  NoDup (f <$> l) ↔ NoDup (g <$> l).
Proof.
  induction l as [|a l IH]; intros H; simpl; [by rewrite !NoDup_nil|].
  rewrite !NoDup_cons, IH by (intros; apply H; by right).
  rewrite !list_elem_of_fmap.
  split; intros [Hn ?]; (split; [|done]); intros (y & Hy & Hin); apply Hn;
    exists y; (split; [|done]); apply (H a y); (by left) || (by right) || done.
Qed.

Lemma batch_keys_make_key fs :
  batch_keys P fs = (λ ft, make_key P ft.1 ft.2) <$> fs.
Proof. unfold batch_keys. rewrite <-list_fmap_compose. done. Qed.

(** C3, as the code has it: the key is made of the owner, the rendered
    timestamp and the file name and of nothing else, so the keys of a
    batch are pairwise distinct exactly when no two of its files share
    both the name and the millisecond read for them (for a rendering that
    is injective on the batch and has no ["-"]). *)
Theorem batch_keys_unique_iff (fs : list (File * Z)) :
  Forall (λ ft, dash_free (da P ft.2) = true) fs →
  (∀ ft1 ft2, ft1 ∈ fs → ft2 ∈ fs → da P ft1.2 = da P ft2.2 → ft1.2 = ft2.2) →
  NoDup (batch_keys P fs) ↔ NoDup ((λ ft, (ft.2, name ft.1)) <$> fs).
Proof.
  intros Hdash Hinj. rewrite batch_keys_make_key.
  apply NoDup_fmap_on. intros x y Hx Hy.
  rewrite Forall_forall in Hdash.
  rewrite make_key_eq by auto. split.
  - intros [Hd Hn]. f_equal; [by apply Hinj|done].
  - intros [= -> ->]. done.
Qed.

End Keys.

Lemma batch_keys_unique_iff_witness :
  NoDup (batch_keys demo [(photo, 1000); (clip, 1000); (photo, 1001)]).
Proof.
  apply batch_keys_unique_iff.
  - repeat constructor.
  - intros ft1 ft2 H1 H2.
    rewrite !elem_of_cons, elem_of_nil in H1, H2.
    destruct H1 as [->|[->|[->|[]]]], H2 as [->|[->|[->|[]]]]; vm_compute; done.
  - vm_compute.
    repeat (apply NoDup_cons; split;
            [rewrite ?elem_of_cons, elem_of_nil; intros Hin; intuition discriminate|]).
    apply NoDup_nil; done.
Defined.

(** C3 as stated fails: two files of one batch with the same name, read
    in the same millisecond, get the same key (no index takes part in the
    key) and the mapping ends up with one record for the two. *)
Lemma same_name_same_ms_collide :
  batch_keys demo [(photo, 1000); (photo, 1000)] = [photo_key; photo_key]
  ∧ ¬ NoDup (batch_keys demo [(photo, 1000); (photo, 1000)])
  ∧ (files <$> uploaders (store (run demo init
        [UploaderEffect "chat" None proxy_config;
         UploadFiles "chat" (Some [(photo, 1000); (photo, 1000)]) proxy_config]))
       !! "chat") = Some {[ photo_key :=
          {| file := Some photo; key := Some photo_key; status := Some loading;
             url := ""; size := (0, 0); errorMessage := None |} ]}.
Proof.
  split; [reflexivity|]. split.
  - intros H. apply NoDup_cons in H as [H _]. apply H. vm_compute. by left.
  - vm_compute. reflexivity.
Qed.

(** ** [getMostRecent] *)

Lemma last_sorted_greatest (l : list string) :
  match last_key (merge_sort code_unit_le l) with
  | None => l = []
  | Some m => m ∈ l ∧ ∀ k, k ∈ l → code_unit_le k m
  end.
Proof.
  unfold last_key.
  pose proof code_unit_le_trans as Htrans. pose proof code_unit_le_total as Htotal.
  pose proof (merge_sort_Permutation code_unit_le l) as Hperm.
  pose proof (StronglySorted_merge_sort code_unit_le l) as Hsorted.
  destruct (last (merge_sort code_unit_le l)) as [m|] eqn:E.
  - apply last_Some in E as [l' E]. rewrite E in Hperm, Hsorted. split.
    + rewrite <-Hperm. set_solver.
    + intros k Hk. rewrite <-Hperm in Hk.
      apply elem_of_app in Hk as [Hk|Hk].
      * eapply StronglySorted_app_1_elem_of; [done..|]. by left.
      * apply list_elem_of_singleton in Hk as ->.
        by destruct (Htotal m m).
  - apply last_None in E. rewrite E in Hperm. by apply Permutation_nil_l in Hperm.
Qed.

Lemma getMostRecent_empty (s : FileStore) (k : string) (up : Uploader) :
  uploaders s !! k = Some up → files up = ∅ → getMostRecent k s = None.
Proof.
  intros Hup He. unfold getMostRecent. rewrite Hup, He, map_to_list_empty. done.
Qed.

Lemma getMostRecent_greatest (s : FileStore) (k : string) (up : Uploader)
    (fileKey : string) (r : Upload) :
  uploaders s !! k = Some up → files up !! fileKey = Some r →
  (∀ k', is_Some (files up !! k') → code_unit_le k' fileKey) →
  fileKey ≠ "" →
  getMostRecent k s = Some r.
Proof.
  intros Hup Hr Hmax Hne. unfold getMostRecent. rewrite Hup.
  pose proof (last_sorted_greatest (fst <$> map_to_list (files up))) as H.
  assert (∀ x, x ∈ (map_to_list (files up)).*1 ↔ is_Some (files up !! x)) as Hdom.
  { intros x. rewrite list_elem_of_fmap. split.
    - intros ([x' v] & -> & Hin). apply elem_of_map_to_list in Hin. eauto.
    - intros [v Hv]. exists (x, v). split; [done|]. by apply elem_of_map_to_list. }
  destruct (last_key _) as [m|].
  - destruct H as [Hin Hle].
    assert (m = fileKey) as ->.
    { apply code_unit_le_antisym.
      - apply Hmax. by apply Hdom.
      - apply Hle, Hdom. eauto. }
    unfold truthy. by rewrite bool_decide_true.
  - assert (fileKey ∈ (map_to_list (files up)).*1) as Hin by (apply Hdom; eauto).
    rewrite H in Hin. by apply elem_of_nil in Hin.
Qed.

(** ** One dispatch *)

Lemma settle_pending (w : World) (i : nat) (t : Task) (a : Answer) :
  pending w !! i = Some t →
  settle i a w = default w (resume t a (settle_at i w)).
Proof. intros H. unfold settle. by rewrite H. Qed.

Lemma lookup_file_insert (s : FileStore) (uploader k : string) (draft : Uploader)
    (f : Upload) (uploader' k' : string) :
  uploaders s !! uploader = Some draft →
  lookup_file (with_uploader uploader (with_files (<[k := f]> (files draft)) draft) s)
    uploader' k'
  = if decide (uploader = uploader' ∧ k = k') then Some f
    else lookup_file s uploader' k'.
Proof.
  intros Hd. rewrite lookup_file_with_uploader. simpl.
  destruct (decide (uploader = uploader')) as [<-|Hne].
  - destruct (decide (k = k')) as [<-|Hk].
    + rewrite decide_True by done. by rewrite lookup_insert_eq.
    + rewrite decide_False by (intros [_ ?]; done). rewrite lookup_insert_ne by done.
      unfold lookup_file. by rewrite Hd.
  - rewrite decide_False by (intros [? _]; done). done.
Qed.

(** What the [.catch] handler does to a record that is still there. *)
Lemma on_error_present (prefix : string → string) (uploader k m : string)
    (w : World) (r : Upload) :
  truthy (prefix m) = true →
  lookup_file (store w) uploader k = Some r →
  ∃ s', on_error prefix uploader k m w = publish s' w
    ∧ ∀ uploader' k', lookup_file s' uploader' k' =
        if decide (uploader = uploader' ∧ k = k')
        then Some (with_errorMessage (prefix m) (with_status error r))
        else lookup_file (store w) uploader' k'.
Proof.
  intros Hm Hr. unfold on_error, commit, updateStatus, update.
  unfold lookup_file in Hr.
  destruct (uploaders (store w) !! uploader) as [draft|] eqn:Hd; simpl in Hr; [|done].
  rewrite Hr, Hm. simpl. eexists. split; [reflexivity|].
  intros. by apply lookup_file_insert.
Qed.

(** What the tail of the [.then] callback does to such a record. *)
Lemma on_success_present (prefix : string → string) (uploader k u : string)
    (w : World) (r : Upload) :
  lookup_file (store w) uploader k = Some r →
  ∃ s', on_success prefix uploader k u w = spawn (AwaitImage uploader k u) (publish s' w)
    ∧ ∀ uploader' k', lookup_file s' uploader' k' =
        if decide (uploader = uploader' ∧ k = k')
        then Some (with_status success r)
        else lookup_file (store w) uploader' k'.
Proof.
  intros Hr. unfold on_success, commit, updateStatus, update.
  unfold lookup_file in Hr.
  destruct (uploaders (store w) !! uploader) as [draft|] eqn:Hd; simpl in Hr; [|done].
  rewrite Hr. simpl. eexists. split; [reflexivity|].
  intros. by apply lookup_file_insert.
Qed.

Lemma updateFile_present (uploader k : string) (sz : Z * Z) (u : string)
    (s : FileStore) (draft : Uploader) :
  uploaders s !! uploader = Some draft →
  ∃ s', updateFile uploader k sz u s = Ok s'
    ∧ ∀ uploader' k', lookup_file s' uploader' k' =
        if decide (uploader = uploader' ∧ k = k')
        then Some (patch (files draft !! k) sz u)
        else lookup_file s uploader' k'.
Proof.
  intros Hd. unfold updateFile, update. rewrite Hd. eexists. split; [reflexivity|].
  intros. by apply lookup_file_insert.
Qed.

Lemma put_then_non_200 (response : Response) (follow : Settled string) :
  resp_status response ≠ 200 →
  ∃ m, put_then {| put_response := Resolved response; get_json := follow |}
       = Rejected m
    ∧ (∀ body, resp_text response = Resolved body → body ≠ "" → m = body)
    ∧ (resp_text response = Resolved "" → m = "Incorrect response status")
    ∧ (∀ e, resp_text response = Rejected e → m = e).
Proof.
  intros Hst. unfold put_then. simpl. rewrite bool_decide_true by done.
  destruct (resp_text response) as [body|e].
  - eexists. split; [reflexivity|]. unfold or_else, truthy.
    split; [|split]; [| |done].
    + intros ? [= <-] Hne. by rewrite bool_decide_true.
    + by intros [= ->].
  - eexists. split; [reflexivity|]. split; [done|]. split; [done|].
    by intros ? [= <-].
Qed.

Lemma updateStatus_absent (uploader fileKey : string) (st : Status)
    (msg : option string) (s : FileStore) :
  lookup_file s uploader fileKey = None →
  updateStatus uploader fileKey st msg s = Throw TypeError_undefined.
Proof.
  unfold lookup_file, updateStatus, update.
  destruct (uploaders s !! uploader) as [draft|]; simpl; [|done]. by intros ->.
Qed.

(** C7, as the code has it. A proxy PUT answered with a status other
    than 200 puts the record in status [error] when the record is still
    in the mapping. The message is
    ["Tlon Hosting upload error: <m>, contact support if it persists."],
    where [<m>] is the response body when it is not empty,
    ["Incorrect response status"] when it is empty, and the message of
    the rejection when the body cannot be read. The other fields of the
    record stay as they are and nothing is left unhandled. When the
    record is no longer in the mapping, the store stays as it is and the
    exception of [updateStatus] is left unhandled. *)
Theorem presigned_non_200_is_error :
  (∀ (w : World) (i : nat) (uploader k u : string) (r : Upload)
     (response : Response) (follow : Settled string),
     pending w !! i = Some (AwaitPut uploader k u) →
     lookup_file (store w) uploader k = Some r →
     resp_status response ≠ 200 →
     let w' := settle i (Put {| put_response := Resolved response;
                                get_json := follow |}) w in
     ∃ r' m, lookup_file (store w') uploader k = Some r'
       ∧ status r' = Some error
       ∧ errorMessage r' =
           Some ("Tlon Hosting upload error: " +:+ m
                 +:+ ", contact support if it persists.")
       ∧ (∀ body, resp_text response = Resolved body → body ≠ "" → m = body)
       ∧ (resp_text response = Resolved "" → m = "Incorrect response status")
       ∧ (∀ e, resp_text response = Rejected e → m = e)
       ∧ file r' = file r ∧ key r' = key r ∧ url r' = url r ∧ size r' = size r
       ∧ unhandled w' = unhandled w)
  ∧ (∀ (w : World) (i : nat) (uploader k u : string)
       (response : Response) (follow : Settled string),
       pending w !! i = Some (AwaitPut uploader k u) →
       lookup_file (store w) uploader k = None →
       resp_status response ≠ 200 →
       let w' := settle i (Put {| put_response := Resolved response;
                                  get_json := follow |}) w in
       store w' = store w
       ∧ unhandled w' = TypeError_undefined :: unhandled w).
Proof.
  split.
  - intros w i uploader k u r response follow Hi Hr Hst w'. subst w'.
    rewrite (settle_pending _ _ _ _ Hi). simpl.
    destruct (put_then_non_200 response follow Hst) as (m & -> & Hbody & Hempty & Hrej).
    destruct (on_error_present tlon_error uploader k m (settle_at i w) r)
      as (s' & -> & Hs'); [done..|].
    simpl. rewrite Hs', decide_True by done. eexists _, m. split; [reflexivity|].
    repeat split; done.
  - intros w i uploader k u response follow Hi Hr Hst w'. subst w'.
    rewrite (settle_pending _ _ _ _ Hi). simpl.
    destruct (put_then_non_200 response follow Hst) as (m & -> & _).
    unfold on_error, commit. simpl. by rewrite (updateStatus_absent _ _ _ _ _ Hr).
Qed.

(** The scenario of the design document, 500 with body
    ["quota exceeded"], and the same answer with an empty body. *)
Lemma presigned_non_200_is_error_witness :
  let w := settle 0 (Token (Resolved "secret")) one_in_flight in
  pending w !! 0%nat
    = Some (AwaitPut "chat" photo_key
              "https://proxy.example/~zod/1000-photo.png?token=secret")
  ∧ (∃ r', lookup_file (store (settle 0 (status_500 "quota exceeded") w))
             "chat" photo_key = Some r'
       ∧ status r' = Some error
       ∧ errorMessage r' =
           Some "Tlon Hosting upload error: quota exceeded, contact support if it persists.")
  ∧ (∃ r', lookup_file (store (settle 0 (status_500 "") w)) "chat" photo_key = Some r'
       ∧ status r' = Some error
       ∧ errorMessage r' =
           Some "Tlon Hosting upload error: Incorrect response status, contact support if it persists.").
Proof.
  intros w.
  destruct presigned_non_200_is_error as [Hpresent _].
  assert (pending w !! 0%nat
          = Some (AwaitPut "chat" photo_key
                    "https://proxy.example/~zod/1000-photo.png?token=secret")) as Hi
    by (vm_compute; reflexivity).
  assert (∃ r, lookup_file (store w) "chat" photo_key = Some r) as [r Hr]
    by (eexists; vm_compute; reflexivity).
  assert (resp_status {| resp_status := 500; resp_text := Resolved "quota exceeded" |}
          ≠ 200) as Hq by (simpl; lia).
  assert (resp_status {| resp_status := 500; resp_text := Resolved "" |} ≠ 200) as He
    by (simpl; lia).
  split; [exact Hi|]. split.
  - destruct (Hpresent w 0%nat "chat" photo_key _ r
                {| resp_status := 500; resp_text := Resolved "quota exceeded" |}
                (Rejected "") Hi Hr Hq)
      as (r' & m & Hl & Hs & Hm & Hbody & _).
    exists r'. split; [exact Hl|]. split; [exact Hs|].
    rewrite Hm, (Hbody "quota exceeded" eq_refl); [reflexivity|discriminate].
  - destruct (Hpresent w 0%nat "chat" photo_key _ r
                {| resp_status := 500; resp_text := Resolved "" |}
                (Rejected "") Hi Hr He)
      as (r' & m & Hl & Hs & Hm & _ & Hempty & _).
    exists r'. split; [exact Hl|]. split; [exact Hs|].
    rewrite Hm, (Hempty eq_refl). reflexivity.
Defined.

(** C7 as stated fails: when the uploader was cleared while the PUT was
    in flight, a 500 answer puts no record in [error]. [updateStatus]
    raises inside the [.catch] handler, the mapping stays empty and the
    exception is left unhandled. *)
Lemma non_200_after_clear_is_no_error :
  let w := run demo one_in_flight
             [Settle 0 (Token (Resolved "secret")); Clear "chat";
              Settle 0 (status_500 "quota exceeded")] in
  (files <$> uploaders (store w) !! "chat") = Some ∅
  ∧ status_of (store w) "chat" photo_key = None
  ∧ pending w = []
  ∧ unhandled w = [TypeError_undefined].
Proof. repeat split; vm_compute; reflexivity. Qed.

(** C1, as the code has it: entering [success] and writing the url are
    two updates of the store. The update that completes a transfer sets
    [status] to [success], leaves [url] as it was and starts the
    measurement of the image; the url and the size are written by the
    later update that runs when the measurement resolves, which leaves
    [status] as it finds it. *)
Theorem success_then_url_two_updates :
  (∀ (w : World) (i : nat) (t : Task) (a : Answer) (uploader k fileUrl : string)
     (r : Upload),
     pending w !! i = Some t →
     lookup_file (store w) uploader k = Some r →
     (∃ p x, t = AwaitPut uploader k p ∧ a = Put x ∧ put_then x = Resolved fileUrl)
     ∨ (t = AwaitSend uploader k fileUrl ∧ a = Sent (Resolved ())) →
     let w' := settle i a w in
     lookup_file (store w') uploader k = Some (with_status success r)
     ∧ url (with_status success r) = url r
     ∧ head (observed w') = Some (store w')
     ∧ pending w' = (delete i (pending w) ++ [AwaitImage uploader k fileUrl])%list)
  ∧ (∀ (w : World) (j : nat) (uploader k fileUrl : string) (sz : Z * Z) (r : Upload),
     pending w !! j = Some (AwaitImage uploader k fileUrl) →
     lookup_file (store w) uploader k = Some r →
     let w' := settle j (ImageSize (Resolved sz)) w in
     ∃ r', lookup_file (store w') uploader k = Some r'
       ∧ url r' = fileUrl ∧ size r' = sz ∧ status r' = status r
       ∧ head (observed w') = Some (store w')).
Proof.
  split.
  - intros w i t a uploader k fileUrl r Hi Hr Hcase w'. subst w'.
    rewrite (settle_pending _ _ _ _ Hi).
    assert (∃ prefix, resume t a (settle_at i w)
              = Some (on_success prefix uploader k fileUrl (settle_at i w)))
      as [prefix ->].
    { destruct Hcase as [(p & x & -> & -> & Hx)|[-> ->]]; simpl.
      - rewrite Hx. by exists tlon_error.
      - by exists s3_error. }
    destruct (on_success_present prefix uploader k fileUrl (settle_at i w) r)
      as (s' & -> & Hs'); [done|].
    simpl. rewrite Hs', decide_True by done. done.
  - intros w j uploader k fileUrl sz r Hj Hr w'. subst w'.
    rewrite (settle_pending _ _ _ _ Hj). simpl.
    unfold lookup_file in Hr.
    destruct (uploaders (store w) !! uploader) as [draft|] eqn:Hd; simpl in Hr; [|done].
    destruct (updateFile_present uploader k sz fileUrl (store w) draft Hd)
      as (s' & Hs' & Hlook).
    unfold commit. simpl. rewrite Hs'. simpl.
    rewrite Hlook, decide_True, Hr by done. eexists. split; [reflexivity|]. done.
Qed.

Lemma success_then_url_two_updates_witness :
  let w := settle 0 (Token (Resolved "secret")) one_in_flight in
  let w1 := settle 0 (ok_200 "https://cdn.example/photo.png") w in
  let w2 := settle 0 (ImageSize (Resolved (640, 480))) w1 in
  (status <$> lookup_file (store w1) "chat" photo_key = Some (Some success)
   ∧ pending w1 = [AwaitImage "chat" photo_key "https://cdn.example/photo.png"])
  ∧ ∃ r', lookup_file (store w2) "chat" photo_key = Some r'
      ∧ url r' = "https://cdn.example/photo.png" ∧ size r' = (640, 480)
      ∧ status r' = Some success.
Proof.
  intros w w1 w2.
  destruct success_then_url_two_updates as [H1 H2].
  assert (∃ r, lookup_file (store w) "chat" photo_key = Some r
               ∧ status (with_status success r) = Some success) as (r & Hr & Hst).
  { eexists. split; [vm_compute; reflexivity|]. done. }
  destruct (H1 w 0%nat (AwaitPut "chat" photo_key
                          "https://proxy.example/~zod/1000-photo.png?token=secret")
              (ok_200 "https://cdn.example/photo.png") "chat" photo_key
              "https://cdn.example/photo.png" r) as (Hl1 & _ & _ & Hp1).
  { vm_compute; reflexivity. }
  { exact Hr. }
  { left. eexists _, _. split; [reflexivity|]. split; reflexivity. }
  split.
  - split; [unfold w1; by rewrite Hl1|exact Hp1].
  - destruct (H2 w1 0%nat "chat" photo_key "https://cdn.example/photo.png" (640, 480)
                (with_status success r)) as (r' & Hr' & Hu & Hs & Hst' & _).
    { unfold w1. rewrite Hp1. reflexivity. }
    { exact Hl1. }
    exists r'. by rewrite Hst' in *.
Defined.

(** C1 as stated fails: the state published when the PUT completes has
    the record in [success] with an empty url, and it stays so when the
    measurement of the image fails. *)
Lemma success_observed_with_empty_url :
  let w := run demo one_in_flight
             [Settle 0 (Token (Resolved "secret"));
              Settle 0 (ok_200 "https://cdn.example/photo.png")] in
  let w' := step demo w (Settle 0 (ImageSize (Rejected "not an image"))) in
  (∃ s r, head (observed w) = Some s ∧ lookup_file s "chat" photo_key = Some r
          ∧ status r = Some success ∧ url r = "")
  ∧ (∃ r, lookup_file (store w') "chat" photo_key = Some r
          ∧ status r = Some success ∧ url r = "")
  ∧ pending w' = [].
Proof.
  split; [|split].
  - eexists _, _. split; [vm_compute; reflexivity|]. split; [vm_compute; reflexivity|]. done.
  - eexists. split; [vm_compute; reflexivity|]. done.
  - vm_compute. reflexivity.
Qed.

Lemma update_is_Ok (k : string) (updateFn : Uploader → result Uploader)
    (s : FileStore) :
  (∀ draft, is_Ok (updateFn draft)) → is_Some (uploaders s !! k) →
  is_Ok (update k updateFn s).
Proof.
  intros Hf [draft Hd]. unfold update. rewrite Hd.
  specialize (Hf draft). by destruct (updateFn draft).
Qed.

Lemma uploadFiles_is_Ok (P : Platform) (w : World) (uploader : string)
    (fs : option (list (File * Z))) (config : StorageConfiguration) :
  is_Some (uploaders (store w) !! uploader) →
  is_Ok (uploadFiles P uploader fs config w).
Proof.
  intros Hup. unfold uploadFiles. destruct fs as [fs|]; [|done].
  unfold commit.
  pose proof (update_is_Ok uploader
    (λ draft, Ok (with_files (keyBy (new_upload P <$> fs) ∪ files draft) draft))
    (store w) (λ _, I) Hup) as H.
  by destruct (update _ _ _).
Qed.

Lemma upload_no_strategy (P : Platform) (w : World) (uploader : string)
    (up : Upload) (config : StorageConfiguration) (r : Upload) :
  (service config = presigned_url ∧ presignedUrl config = "")
  ∨ (service config = credentials ∧ client (store w) = None) →
  lookup_file (store w) uploader (key_of up) = Some r →
  ∃ s', upload P uploader up config w = publish s' w
    ∧ lookup_file s' uploader (key_of up) = Some (with_status loading r).
Proof.
  intros Hcfg Hr. unfold upload, commit, updateStatus, update.
  unfold lookup_file in Hr.
  destruct (uploaders (store w) !! uploader) as [draft|] eqn:Hd; simpl in Hr; [|done].
  rewrite Hr. simpl. eexists. split.
  - destruct Hcfg as [[-> ->]|[-> ->]]; simpl; reflexivity.
  - rewrite lookup_file_insert by done. by rewrite decide_True.
Qed.

(** C2, as the code has it. A failure of the transfer itself (the PUT is
    rejected or answered with a status other than 200, the body or the
    resolved url cannot be read, the S3 [send] is rejected) puts the
    record, if it is still in the mapping, in [error] with the message
    between the prefix and the suffix of its backend; nothing else in the
    store changes, the other suspended dispatches stay suspended and no
    rejection is left unhandled. When the field the strategy needs is
    missing (no [presignedUrl], no client) no transfer is started and the
    record stays in [loading]. [uploadFiles] raises only when the
    uploader does not exist. *)
Theorem transfer_failure_is_contained (P : Platform) :
  (∀ (w : World) (i : nat) (t : Task) (a : Answer) (uploader k m : string)
     (r : Upload) (prefix : string → string),
     pending w !! i = Some t →
     lookup_file (store w) uploader k = Some r →
     (∃ p x, t = AwaitPut uploader k p ∧ a = Put x ∧ put_then x = Rejected m
             ∧ prefix = tlon_error)
     ∨ (∃ p, t = AwaitSend uploader k p ∧ a = Sent (Rejected m)
             ∧ prefix = s3_error) →
     let w' := settle i a w in
     lookup_file (store w') uploader k
       = Some (with_errorMessage (prefix m) (with_status error r))
     ∧ (∀ uploader' k', ¬ (uploader = uploader' ∧ k = k') →
          lookup_file (store w') uploader' k' = lookup_file (store w) uploader' k')
     ∧ pending w' = delete i (pending w)
     ∧ unhandled w' = unhandled w)
  ∧ (∀ (w : World) (uploader : string) (up : Upload)
       (config : StorageConfiguration) (r : Upload),
     (service config = presigned_url ∧ presignedUrl config = "")
     ∨ (service config = credentials ∧ client (store w) = None) →
     lookup_file (store w) uploader (key_of up) = Some r →
     let w' := upload P uploader up config w in
     lookup_file (store w') uploader (key_of up) = Some (with_status loading r)
     ∧ pending w' = pending w
     ∧ unhandled w' = unhandled w)
  ∧ (∀ (w : World) (uploader : string) (fs : option (list (File * Z)))
       (config : StorageConfiguration),
     is_Some (uploaders (store w) !! uploader) →
     is_Ok (uploadFiles P uploader fs config w)).
Proof.
  split; [|split].
  - intros w i t a uploader k m r prefix Hi Hr Hcase w'. subst w'.
    rewrite (settle_pending _ _ _ _ Hi).
    assert (resume t a (settle_at i w)
              = Some (on_error prefix uploader k m (settle_at i w))
            ∧ truthy (prefix m) = true) as [-> Hm].
    { destruct Hcase as [(p & x & -> & -> & Hx & ->)|(p & -> & -> & ->)]; simpl.
      - by rewrite Hx.
      - done. }
    destruct (on_error_present prefix uploader k m (settle_at i w) r)
      as (s' & -> & Hs'); [done..|].
    simpl. split; [by rewrite Hs', decide_True|]. split; [|done].
    intros uploader' k' Hne. by rewrite Hs', decide_False.
  - intros w uploader up config r Hcfg Hr w'. subst w'.
    destruct (upload_no_strategy P w uploader up config r Hcfg Hr) as (s' & -> & Hs').
    done.
  - intros. by apply uploadFiles_is_Ok.
Qed.

Lemma transfer_failure_is_contained_witness :
  let w := settle 0 (Token (Resolved "secret")) one_in_flight in
  let w' := settle 0 (Put {| put_response := Rejected "Failed to fetch";
                             get_json := Rejected "" |}) w in
  (errorMessage <$> lookup_file (store w') "chat" photo_key
     = Some (Some "Tlon Hosting upload error: Failed to fetch, contact support if it persists.")
   ∧ unhandled w' = [])
  ∧ (∃ r, lookup_file (store (upload demo "chat" (new_upload demo (photo, 1000))
                               unset_proxy_config one_in_flight)) "chat" photo_key
          = Some r ∧ status r = Some loading)
  ∧ is_Ok (uploadFiles demo "chat" (Some [(clip, 1001)]) proxy_config one_in_flight).
Proof.
  intros w w'.
  destruct (transfer_failure_is_contained demo) as (H1 & H2 & H3).
  assert (∃ r, lookup_file (store one_in_flight) "chat" photo_key = Some r
               ∧ status (with_status loading r) = Some loading) as (r & Hr & Hst).
  { eexists. split; [vm_compute; reflexivity|]. done. }
  split; [|split].
  - destruct (H1 w 0%nat (AwaitPut "chat" photo_key
                          "https://proxy.example/~zod/1000-photo.png?token=secret")
                (Put {| put_response := Rejected "Failed to fetch"; get_json := Rejected "" |})
                "chat" photo_key "Failed to fetch" r tlon_error)
      as (Hl & _ & _ & Hu).
    { vm_compute; reflexivity. }
    { exact Hr. }
    { left. eexists _, _. repeat split; reflexivity. }
    unfold w'. rewrite Hl. split; [reflexivity|exact Hu].
  - destruct (H2 one_in_flight "chat" (new_upload demo (photo, 1000))
                unset_proxy_config r) as (Hl & _ & _).
    { left. split; reflexivity. }
    { exact Hr. }
    eexists. split; [exact Hl|exact Hst].
  - apply H3. vm_compute. eauto.
Defined.

Lemma settle_idle (w : World) (i : nat) (a : Answer) :
  pending w = [] → settle i a w = w.
Proof. intros H. unfold settle. rewrite H. by destruct i. Qed.

(** C2 as stated fails: with the proxy strategy and no [presignedUrl]
    neither guarded block of [upload] runs; the record is left in
    [loading], nothing is suspended and no later event can change it. *)
Lemma missing_proxy_url_stays_loading :
  let w := run demo init
             [UploaderEffect "chat" None proxy_config;
              UploadFiles "chat" (Some [(photo, 1000)]) unset_proxy_config] in
  status_of (store w) "chat" photo_key = Some loading
  ∧ pending w = [] ∧ unhandled w = []
  ∧ ∀ i a, step demo w (Settle i a) = w.
Proof.
  split; [vm_compute; reflexivity|]. split; [vm_compute; reflexivity|].
  split; [vm_compute; reflexivity|].
  intros i a. apply settle_idle. vm_compute; reflexivity.
Qed.

(** C10: [updateStatus] succeeds exactly when the record is in the
    mapping of an existing uploader, and the other case is reachable:
    [clear], or [removeByURL] with the empty url, takes away the record
    of a transfer in flight, whose completion then raises in
    [updateStatus] both in the [.then] callback and in the [.catch]
    handler. *)
Theorem updateStatus_needs_present_record :
  (∀ (s : FileStore) (uploader fileKey : string) (st : Status) (msg : option string),
     is_Ok (updateStatus uploader fileKey st msg s)
     ↔ is_Some (lookup_file s uploader fileKey))
  ∧ (let w := run demo one_in_flight
                [Clear "chat"; Settle 0 (Token (Resolved "secret"));
                 Settle 0 (ok_200 "https://cdn.example/photo.png")] in
     lookup_file (store w) "chat" photo_key = None
     ∧ unhandled w = [TypeError_undefined])
  ∧ (let w := run demo one_in_flight
                [Settle 0 (Token (Resolved "secret")); RemoveByURL "chat" "";
                 Settle 0 (status_500 "quota exceeded")] in
     lookup_file (store w) "chat" photo_key = None
     ∧ unhandled w = [TypeError_undefined]).
Proof.
  split; [|split].
  - intros. apply updateStatus_present.
  - split; vm_compute; reflexivity.
  - split; vm_compute; reflexivity.
Qed.

(** ** The client slot *)

Lemma commit_update_client (k : string) (updateFn : Uploader → result Uploader)
    (w w' : World) :
  commit (update k updateFn) w = Ok w' → client (store w') = client (store w).
Proof.
  unfold commit. destruct (update k updateFn (store w)) as [s|] eqn:E; [|done].
  intros [= <-]. apply update_Ok in E as (? & ? & _ & _ & ->). done.
Qed.

Lemma on_error_client prefix uploader k m w :
  client (store (on_error prefix uploader k m w)) = client (store w).
Proof.
  unfold on_error, updateStatus.
  destruct (commit _ w) eqn:E; [|done]. by apply commit_update_client in E.
Qed.

Lemma on_success_client prefix uploader k u w :
  client (store (on_success prefix uploader k u w)) = client (store w).
Proof.
  unfold on_success, updateStatus.
  destruct (commit _ w) eqn:E; [|apply on_error_client].
  by apply commit_update_client in E.
Qed.

Lemma upload_client (P : Platform) uploader up config w :
  client (store (upload P uploader up config w)) = client (store w).
Proof.
  unfold upload, updateStatus.
  destruct (commit _ w) eqn:E; [|done]. apply commit_update_client in E.
  unfold upload_credentials.
  repeat (case_match; simpl); done.
Qed.

Lemma foldl_upload_client (P : Platform) uploader config l w :
  client (store (foldl (λ w' f, upload P uploader f config w') w l))
  = client (store w).
Proof.
  revert w. induction l as [|f l IH]; intros w; simpl; [done|].
  by rewrite IH, upload_client.
Qed.

Lemma settle_client (i : nat) (a : Answer) (w : World) :
  client (store (settle i a w)) = client (store w).
Proof.
  unfold settle. destruct (pending w !! i) as [t|]; [|done].
  destruct t, a as [[]|?|[]|[]|[]]; simpl;
    rewrite ?on_success_client, ?on_error_client; try done.
  - destruct (put_then x); simpl; by rewrite ?on_success_client, ?on_error_client.
  - unfold updateFile. destruct (commit _ _) eqn:E; [|done].
    by apply commit_update_client in E.
Qed.

Lemma step_client (P : Platform) (w : World) (e : Event) :
  (∀ creds rgn, e ≠ CreateClient creds rgn) →
  client (store (step P w e)) = client (store w).
Proof.
  intros Hne. destruct e as [uploader fs config|uploader|uploader u| |k cl cfg|i a]; simpl.
  - unfold uploadFiles. destruct fs as [fs|]; [|done].
    destruct (commit _ w) eqn:E; [|done]. simpl.
    rewrite foldl_upload_client. by apply commit_update_client in E.
  - unfold clear. destruct (commit _ w) eqn:E; [|done]. by apply commit_update_client in E.
  - unfold removeByURL. destruct (commit _ w) eqn:E; [|done].
    by apply commit_update_client in E.
  - by destruct (Hne creds rgn).
  - unfold useUploader_effect. by case_match.
  - apply settle_client.
Qed.

(** C4, as the code has it. The store has one slot for the client.
    [useClient] returns what is in the slot; its effects build a client
    only when the render found the slot empty and [hasCredentials] set,
    and leave the world alone when the render found a client, whatever
    the credentials are by then. [createClient] always builds a client
    from the credentials it is given and puts it in the slot. No other
    event, a submission in particular, builds or replaces the client. *)
Theorem client_built_once_and_kept (P : Platform) :
  (∀ creds configuration h w,
     r_client (useClient creds configuration h w) = client (store w))
  ∧ (∀ (r : ClientRender) (h : ClientHook) (w : World) (c : S3Client),
       r_client r = Some c → (useClient_effects P r h w).2 = w)
  ∧ (∀ (r : ClientRender) (h : ClientHook) (w : World),
       (useClient_effects P r h w).2 ≠ w →
       r_client r = None ∧ r_hasCredentials r = true ∧ is_Some (r_credentials r))
  ∧ (∀ (creds : StorageCredentials) (rgn : string) (w w' : World),
       createClient P creds rgn w = Ok w' →
       ∃ c, client (store w') = Some c ∧ client_credentials c = creds
            ∧ uploaders (store w') = uploaders (store w))
  ∧ (∀ (w : World) (e : Event),
       (∀ creds rgn, e ≠ CreateClient creds rgn) →
       client (store (step P w e)) = client (store w)).
Proof.
  split; [done|]. split; [|split; [|split]].
  - intros r h w c Hc. unfold useClient_effects. simpl.
    rewrite Hc. cbn. by rewrite !andb_false_r.
  - intros r h w. unfold useClient_effects. simpl.
    destruct (bool_decide (deps2 <$> committed h ≠ Some (deps2 r))); simpl; [|done].
    destruct (r_hasCredentials r); simpl; [|done].
    destruct (r_client r) as [c|] eqn:Hc; cbn; [done|].
    intros H. unfold initClient in *. destruct (r_credentials r); [eauto|done].
  - intros creds rgn w w'. unfold createClient.
    destruct (new_URL P _); [|done]. intros [= <-]. simpl. eauto.
  - apply step_client.
Qed.

Lemma client_built_once_and_kept_witness :
  let mounted := client_pass demo (Some creds_a) s3_config
                   (client_pass demo (Some creds_a) s3_config (mount_client, init)) in
  (∃ c, client (store mounted.2) = Some c ∧ client_credentials c = creds_a)
  ∧ (client_pass demo (Some creds_a) s3_config mounted).2 = mounted.2
  ∧ client (store (step demo mounted.2 (UploadFiles "chat" (Some [(photo, 1000)]) s3_config)))
    = client (store mounted.2).
Proof.
  intros mounted.
  destruct (client_built_once_and_kept demo) as (_ & Hkeep & _ & _ & Hstep).
  split; [|split].
  - eexists. split; [vm_compute; reflexivity|reflexivity].
  - unfold client_pass. eapply Hkeep. vm_compute. reflexivity.
  - apply Hstep. intros ? ?. discriminate.
Defined.

(** C4 as stated fails: once a client is in the slot, a render with other
    credentials returns that client and its effects do not build another
    one; the client in the slot is still the one built from the first
    credentials. *)
Lemma credential_change_keeps_old_client :
  let mounted := client_pass demo (Some creds_a) s3_config
                   (client_pass demo (Some creds_a) s3_config (mount_client, init)) in
  let rotated := client_pass demo (Some creds_b) s3_config
                   (client_pass demo (Some creds_b) s3_config mounted) in
  creds_a ≠ creds_b
  ∧ (client_credentials <$> client (store mounted.2)) = Some creds_a
  ∧ (client_credentials <$> client (store rotated.2)) = Some creds_a
  ∧ (client_credentials <$>
       r_client (useClient (Some creds_b) s3_config rotated.1 rotated.2)) = Some creds_a.
Proof.
  split; [done|]. repeat split; vm_compute; reflexivity.
Qed.

(** ** [useUploader] *)

Lemma useUploader_effect_cases k cl configuration w :
  (prerequisites cl configuration ∧
   useUploader_effect k cl configuration w
   = publish (with_uploader k (emptyUploader k configuration) (store w)) w)
  ∨ (¬ prerequisites cl configuration ∧ useUploader_effect k cl configuration w = w).
Proof.
  unfold useUploader_effect, prerequisites, truthy.
  destruct cl as [c|], (service configuration); cbn;
    repeat (case_bool_decide; simplify_eq); cbn;
    try (left; split; [|done]; by right);
    try (left; split; [|done]; left; split; [eauto|done]);
    try (right; split; [|done]; intros [[[? ?] ?]|[? ?]]; done).
Qed.





(** ** The life of one record *)

Local Close Scope Z_scope.
Local Open Scope nat_scope.

Lemma core_quiet h c c' : core h c → c' = None ∨ c' = c → core (push c' h) c'.
Proof.
  intros [Hs Hc] [->| ->]; [by split|].
  destruct c as [st|]; [|by split]. simpl.
  specialize (Hc st eq_refl). destruct h as [|a h]; simplify_eq/=.
  split; [|by intros ? [= ->]]. apply shape_push; [done|by left].
Qed.

Lemma core_next h a b : shape h → head h = Some a → next_ok a b → core (b :: h) (Some b).
Proof.
  intros Hs Hh Hn. destruct h as [|a' h]; simplify_eq/=.
  split; [by apply shape_push|by intros ? [= ->]].
Qed.

Lemma inv_weaken b h c n : inv b h c n → inv false h c n.
Proof. intros (? & ? & ? & _). split; [done|]. split; [done|]. split; done. Qed.

Lemma inv_quiet b h c n c' :
  inv b h c n → c' = None ∨ c' = c → inv b (push c' h) c' n.
Proof.
  intros (Hc & Hn & Hl & Hf) Hq. split; [by apply (core_quiet h c)|]. split; [done|].
  split.
  - intros H1. specialize (Hl H1).
    destruct Hq as [->| ->]; [done|]. destruct c as [st|]; [|done].
    simpl. destruct Hc as [_ Hc]. specialize (Hc st eq_refl). congruence.
  - intros Hb. destruct (Hf Hb) as [-> ->]. split; [|done].
    destruct Hq as [->| ->]; [done|]. destruct c as [st|]; [|done].
    destruct Hc as [_ Hc]. by specialize (Hc st eq_refl).
Qed.

Lemma seeded_quiet h c n c' :
  seeded h c n → c' = None ∨ c' = c → seeded (push c' h) c' n.
Proof.
  intros (Hc & Hh & Hn) Hq. split; [by apply (core_quiet h c)|]. split; [|done].
  destruct Hq as [->| ->]; [done|]. destruct c as [st|]; [|done].
  simpl. destruct Hc as [_ Hc]. specialize (Hc st eq_refl). congruence.
Qed.

(** The last writer reports: the record leaves [loading]. *)
Lemma inv_report h c b :
  inv false h c 1 → b = success ∨ b = error → inv false (b :: h) (Some b) 0.
Proof.
  intros ([Hs _] & _ & Hl & _) Hb. specialize (Hl eq_refl).
  split; [|split; [lia|split; [lia|done]]].
  eapply core_next; [done..|]. right. right. by split.
Qed.

Lemma inv_drop_writer b h c n : inv b h c n → inv b h c (n - 1).
Proof.
  intros (Hc & Hn & Hl & Hf). split; [done|]. split; [lia|]. split.
  - intros H1. lia.
  - intros Hb. destruct (Hf Hb) as [-> ->]. done.
Qed.

(** A dispatch starts on the seeded record. *)
Lemma seeded_start h c n : n ≤ 1 → seeded h c 0 → inv false (loading :: h) (Some loading) n.
Proof.
  intros Hn ([Hs _] & Hh & _).
  split; [|split; [done|split; done]].
  eapply core_next; [done..|]. right. left. done.
Qed.

Lemma seeded_inv h c : seeded h c 0 → inv false h c 0.
Proof. intros (Hc & _ & _). split; [done|]. split; [lia|]. split; [lia|done]. Qed.

(** A history of that shape is some [initial], then some [loading], then
    some of one terminal status, with no stage skipped. *)
Lemma shape_stages h :
  shape h →
  ∃ (a b c : nat) (t : Status), (t = success ∨ t = error)
    ∧ h = (replicate c t ++ replicate b loading ++ replicate a initial)%list
    ∧ (0 < c → 0 < b) ∧ (0 < b → 0 < a).
Proof.
  induction 1 as [| |x y h Hs IH Hn].
  - exists 0, 0, 0, success. split; [by left|]. split; [done|]. split; lia.
  - exists 1, 0, 0, success. split; [by left|]. split; [done|]. split; lia.
  - destruct IH as (a & b & c & t & Ht & Hh & Hcb & Hba).
    destruct c as [|c].
    + destruct b as [|b].
      * destruct a as [|a]; simplify_eq/=.
        destruct Hn as [<-|[[_ ->]|[? _]]]; [| |done].
        -- exists (S (S a)), 0, 0, t. split; [done|]. split; [done|]. split; lia.
        -- exists (S a), 1, 0, t. split; [done|]. split; [done|]. split; lia.
      * simpl in Hh. injection Hh as -> Hh.
        destruct Hn as [<-|[[? _]|[_ [->| ->]]]]; [|done| |].
        -- exists a, (S (S b)), 0, t. split; [done|]. split; [by rewrite Hh|]. split; lia.
        -- exists a, (S b), 1, success. split; [by left|].
           split; [by rewrite Hh|]. split; lia.
        -- exists a, (S b), 1, error. split; [by right|].
           split; [by rewrite Hh|]. split; lia.
    + simpl in Hh. injection Hh as -> Hh.
      assert (y = t) as ->.
      { destruct Hn as [<-|[[-> _]|[-> _]]]; [done|by destruct Ht..]. }
      exists a, b, (S (S c)), t. split; [done|]. split; [by rewrite Hh|]. split; lia.
Qed.

Lemma count_writers_app uploader k l1 l2 :
  count_writers uploader k (l1 ++ l2)%list
  = count_writers uploader k l1 + count_writers uploader k l2.
Proof. apply sum_list_with_app. Qed.

Lemma count_writers_delete uploader k l i t :
  l !! i = Some t →
  count_writers uploader k l
  = count_writers uploader k (delete i l) + (if writes_to uploader k t then 1 else 0).
Proof.
  revert i. induction l as [|x l IH]; intros [|i] H; simplify_eq/=.
  - unfold count_writers. simpl. lia.
  - unfold count_writers in *. simpl. rewrite (IH i H). lia.
Qed.

Lemma keyBy_lookup_acc (l : list Upload) (m : gmap string Upload) (k : string)
    (r : Upload) :
  foldl (λ m f, <[key_of f := f]> m) m l !! k = Some r →
  (r ∈ l ∧ key_of r = k) ∨ m !! k = Some r.
Proof.
  revert m. induction l as [|f l IH]; intros m; simpl; [by right|].
  intros H. destruct (IH _ H) as [[? ?]|Hm].
  - left. split; [by right|done].
  - destruct (decide (key_of f = k)) as [<-|Hne].
    + rewrite lookup_insert_eq in Hm. injection Hm as <-. left. split; [by left|done].
    + rewrite lookup_insert_ne in Hm by done. by right.
Qed.

Lemma keyBy_is_Some_acc (l : list Upload) (m : gmap string Upload) (k : string) :
  is_Some (m !! k) ∨ k ∈ key_of <$> l →
  is_Some (foldl (λ m f, <[key_of f := f]> m) m l !! k).
Proof.
  revert m. induction l as [|f l IH]; intros m; simpl.
  - intros [?|H]; [done|]. by apply elem_of_nil in H.
  - intros H. apply IH.
    destruct (decide (key_of f = k)) as [<-|Hne].
    + left. rewrite lookup_insert_eq. eauto.
    + rewrite lookup_insert_ne by done.
      destruct H as [?|H]; [by left|]. right.
      apply elem_of_cons in H as [?|?]; [done|done].
Qed.

Lemma keyBy_new_upload (P : Platform) (fs : list (File * Z)) (k : string) :
  match keyBy (new_upload P <$> fs) !! k with
  | Some r => status r = Some initial ∧ k ∈ key_of <$> (new_upload P <$> fs)
  | None => k ∉ key_of <$> (new_upload P <$> fs)
  end.
Proof.
  unfold keyBy. destruct (foldl _ _ _ !! k) as [r|] eqn:E.
  - apply keyBy_lookup_acc in E as [[Hin <-]|E]; [|by rewrite lookup_empty in E].
    split; [|by apply list_elem_of_fmap_2].
    apply list_elem_of_fmap in Hin as (ft & -> & _). done.
  - intros Hin.
    destruct (keyBy_is_Some_acc (new_upload P <$> fs) ∅ k) as [? ?]; [by right|].
    congruence.
Qed.

Lemma filter_key_length (k : string) (l : list string) :
  (length (filter (λ k', k' = k) l) = 0 → k ∉ l)
  ∧ (0 < length (filter (λ k', k' = k) l) → k ∈ l).
Proof.
  induction l as [|x l [IH0 IH1]]; simpl.
  - split; [intros _; apply not_elem_of_nil|]. simpl. lia.
  - rewrite filter_cons. case_decide as E; simpl.
    + split; [lia|]. intros _. subst. by left.
    + split.
      * intros H. apply not_elem_of_cons. split; [done|by apply IH0].
      * intros H. right. by apply IH1.
Qed.

Section Lifecycle.

Variable P : Platform.
Variables u0 k0 : string.

Local Abbreviation Inv := (Inv_at u0 k0).
Local Abbreviation Seeded := (Seeded_at u0 k0).
Local Abbreviation own := (own_at u0 k0).

Lemma rhist_publish s w :
  omap (λ s, status_of s u0 k0) (observed (publish s w))
  = push (status_of s u0 k0) (omap (λ s, status_of s u0 k0) (observed w)).
Proof. simpl. by destruct (status_of s u0 k0). Qed.

Lemma Inv_publish_quiet b s w :
  Inv b w →
  status_of s u0 k0 = None ∨ status_of s u0 k0 = status_of (store w) u0 k0 →
  Inv b (publish s w).
Proof.
  unfold Inv_at. intros H Hq. rewrite rhist_publish. simpl.
  by apply (inv_quiet b _ (status_of (store w) u0 k0)).
Qed.

Lemma Seeded_publish_quiet s w :
  Seeded w →
  status_of s u0 k0 = None ∨ status_of s u0 k0 = status_of (store w) u0 k0 →
  Seeded (publish s w).
Proof.
  unfold Seeded_at. intros H Hq. rewrite rhist_publish. simpl.
  by apply (seeded_quiet _ (status_of (store w) u0 k0)).
Qed.

Lemma Inv_spawn b t w : writes_to u0 k0 t = false → Inv b w → Inv b (spawn t w).
Proof.
  unfold Inv_at. simpl. intros Ht H. rewrite count_writers_app.
  unfold count_writers at 2. simpl. rewrite Ht. by rewrite !Nat.add_0_r.
Qed.

(** *** What each store operation does to the status of the record *)

Lemma status_with_uploader_insert s uploader k draft f :
  uploaders s !! uploader = Some draft →
  status_of (with_uploader uploader (with_files (<[k := f]> (files draft)) draft) s)
    u0 k0
  = if decide (uploader = u0 ∧ k = k0) then status f else status_of s u0 k0.
Proof.
  intros Hd. unfold status_of. rewrite lookup_file_insert by done. by case_decide.
Qed.

Lemma status_updateStatus uploader k st msg s s' :
  updateStatus uploader k st msg s = Ok s' →
  status_of s' u0 k0
  = if decide (uploader = u0 ∧ k = k0) then Some st else status_of s u0 k0.
Proof.
  intros H. apply updateStatus_Ok in H
    as (draft & f & f' & Hd & Hf & Hst & _ & _ & _ & _ & ->).
  rewrite status_with_uploader_insert by done. by rewrite Hst.
Qed.

Lemma status_updateFile uploader k sz u s s' :
  updateFile uploader k sz u s = Ok s' → status_of s' u0 k0 = status_of s u0 k0.
Proof.
  unfold updateFile. rewrite update_Ok. intros (draft & draft' & Hd & [= <-] & ->).
  rewrite status_with_uploader_insert by done. case_decide as E; [|done].
  destruct E as [-> ->]. unfold status_of, lookup_file. rewrite Hd. simpl.
  by destruct (files draft !! k0).
Qed.

Lemma status_with_uploader k up s :
  status_of (with_uploader k up s) u0 k0
  = if decide (k = u0) then files up !! k0 ≫= status else status_of s u0 k0.
Proof. unfold status_of. rewrite lookup_file_with_uploader. by case_decide. Qed.

Lemma status_clear uploader s s' :
  clear uploader s = Ok s' →
  status_of s' u0 k0 = None ∨ status_of s' u0 k0 = status_of s u0 k0.
Proof.
  unfold clear. rewrite update_Ok. intros (draft & draft' & Hd & [= <-] & ->).
  rewrite status_with_uploader. case_decide; [left|by right]. simpl.
  by rewrite lookup_empty.
Qed.

Lemma status_removeByURL uploader u s s' :
  removeByURL uploader u s = Ok s' →
  status_of s' u0 k0 = None ∨ status_of s' u0 k0 = status_of s u0 k0.
Proof.
  unfold removeByURL. rewrite update_Ok. intros (draft & draft' & Hd & [= <-] & ->).
  rewrite status_with_uploader. case_decide as E; [|by right]. subst. simpl.
  unfold status_of, lookup_file. rewrite Hd. simpl.
  destruct (filter _ (files draft) !! k0) as [r|] eqn:Hr; [|by left].
  apply map_lookup_filter_Some in Hr as [-> _]. by right.
Qed.

Lemma status_seed uploader fs s s' :
  update uploader (λ draft,
    Ok (with_files (keyBy (new_upload P <$> fs) ∪ files draft) draft)) s = Ok s' →
  status_of s' u0 k0
  = if decide (uploader = u0 ∧ k0 ∈ key_of <$> (new_upload P <$> fs))
    then Some initial else status_of s u0 k0.
Proof.
  rewrite update_Ok. intros (draft & draft' & Hd & [= <-] & ->).
  rewrite status_with_uploader. simpl.
  pose proof (keyBy_new_upload P fs k0) as Hk.
  destruct (decide (uploader = u0)) as [->|Hne].
  - rewrite lookup_union.
    destruct (keyBy (new_upload P <$> fs) !! k0) as [r|] eqn:E.
    + destruct Hk as [Hst Hin]. rewrite decide_True by done.
      destruct (files draft !! k0); simpl; done.
    + rewrite decide_False by (by intros [_ ?]).
      unfold status_of, lookup_file. rewrite Hd. simpl.
      by destruct (files draft !! k0).
  - rewrite decide_False by (by intros [? _]). done.
Qed.

(** *** [upload] *)

Lemma upload_fields uploader f config w :
  let w' := upload P uploader f config w in
  (store w' = store w ∧ observed w' = observed w ∧ pending w' = pending w)
  ∨ ∃ s' ts, updateStatus uploader (key_of f) loading None (store w) = Ok s'
      ∧ store w' = s' ∧ observed w' = s' :: observed w
      ∧ pending w' = (pending w ++ ts)%list
      ∧ count_writers u0 k0 ts ≤ 1
      ∧ (¬ (uploader = u0 ∧ key_of f = k0) → count_writers u0 k0 ts = 0).
Proof.
  unfold upload, commit.
  destruct (updateStatus uploader (key_of f) loading None (store w)) as [s'|e] eqn:E;
    [|by left].
  right. exists s'.
  assert (∀ t, (t = AwaitToken uploader (key_of f) (presignedUrl config +:+ "/" +:+ key_of f)
                ∨ t = AwaitSigned uploader (key_of f)
                ∨ ∃ u, t = AwaitSend uploader (key_of f) u) →
            count_writers u0 k0 [t] ≤ 1
            ∧ (¬ (uploader = u0 ∧ key_of f = k0) → count_writers u0 k0 [t] = 0)) as Hone.
  { intros t Ht. unfold count_writers. simpl.
    assert (writes_to u0 k0 t = bool_decide (uploader = u0 ∧ key_of f = k0)) as ->.
    { by destruct Ht as [->|[->|[u ->]]]. }
    case_bool_decide; split; (lia || done). }
  destruct (_ && truthy _).
  { eexists [_]. split; [done|]. repeat (split; [done|]). apply Hone. by left. }
  destruct (_ && _).
  - unfold upload_credentials. destruct (truthy _).
    + destruct (new_URL_base _ _ _) as [u|].
      * eexists [_]. split; [done|]. repeat (split; [done|]). apply Hone. eauto.
      * exists []. simpl. rewrite app_nil_r. repeat (split; [done|]). split; [lia|done].
    + eexists [_]. split; [done|]. repeat (split; [done|]). apply Hone. eauto.
  - exists []. simpl. rewrite app_nil_r. repeat (split; [done|]). split; [lia|done].
Qed.

Lemma upload_foreign_Inv b uploader f config w :
  ¬ (uploader = u0 ∧ key_of f = k0) → Inv b w → Inv b (upload P uploader f config w).
Proof.
  intros Hne H.
  destruct (upload_fields uploader f config w)
    as [(Hs & Ho & Hp)|(s' & ts & Hu & Hs & Ho & Hp & _ & Hts)].
  - unfold Inv_at. by rewrite Hs, Ho, Hp.
  - apply status_updateStatus in Hu. rewrite decide_False in Hu by done.
    pose proof (Inv_publish_quiet b s' w H (or_intror Hu)) as H'.
    unfold Inv_at in *. rewrite Hs, Ho, Hp, count_writers_app, (Hts Hne), Nat.add_0_r.
    exact H'.
Qed.

Lemma upload_foreign_Seeded uploader f config w :
  ¬ (uploader = u0 ∧ key_of f = k0) → Seeded w → Seeded (upload P uploader f config w).
Proof.
  intros Hne H.
  destruct (upload_fields uploader f config w)
    as [(Hs & Ho & Hp)|(s' & ts & Hu & Hs & Ho & Hp & _ & Hts)].
  - unfold Seeded_at. by rewrite Hs, Ho, Hp.
  - apply status_updateStatus in Hu. rewrite decide_False in Hu by done.
    pose proof (Seeded_publish_quiet s' w H (or_intror Hu)) as H'.
    unfold Seeded_at in *. rewrite Hs, Ho, Hp, count_writers_app, (Hts Hne), Nat.add_0_r.
    exact H'.
Qed.

Lemma upload_own f config w :
  key_of f = k0 → Seeded w → Inv false (upload P u0 f config w).
Proof.
  intros Hk H.
  destruct (upload_fields u0 f config w)
    as [(Hs & Ho & Hp)|(s' & ts & Hu & Hs & Ho & Hp & Hts & _)].
  - unfold Inv_at. rewrite Hs, Ho, Hp. destruct H as (? & ? & Hn). rewrite Hn.
    apply seeded_inv. split; [done|]. by split.
  - apply status_updateStatus in Hu. rewrite decide_True in Hu by done.
    unfold Inv_at, Seeded_at in *. rewrite Hs, Ho, Hp, Hu, count_writers_app. simpl. rewrite Hu.
    destruct H as (Hc & Hh & Hn). rewrite Hn. simpl.
    apply (seeded_start _ (status_of (store w) u0 k0)); [done|].
    split; [done|]. by split.
Qed.

Lemma own_cons uploader f l :
  own uploader (f :: l)
  = if decide (uploader = u0 ∧ key_of f = k0) then S (own uploader l) else own uploader l.
Proof.
  unfold own_at. destruct (decide (uploader = u0)) as [->|Hne].
  - rewrite fmap_cons, filter_cons.
    destruct (decide (key_of f = k0)).
    + by rewrite decide_True.
    + by rewrite decide_False by (by intros [_ ?]).
  - by rewrite decide_False by (by intros [? _]).
Qed.

Lemma foldl_upload_foreign b uploader config l w :
  own uploader l = 0 → Inv b w →
  Inv b (foldl (λ w' f, upload P uploader f config w') w l).
Proof.
  revert w. induction l as [|f l IH]; intros w; simpl; [done|].
  rewrite own_cons. case_decide as E; [done|].
  intros H0 H. apply IH; [done|]. by apply upload_foreign_Inv.
Qed.

Lemma foldl_upload_own uploader config l w :
  own uploader l = 1 → Seeded w →
  Inv false (foldl (λ w' f, upload P uploader f config w') w l).
Proof.
  revert w. induction l as [|f l IH]; intros w; simpl; [by unfold own_at; case_decide|].
  rewrite own_cons. case_decide as E.
  - destruct E as [-> Hk]. intros [= H0] H.
    apply foldl_upload_foreign; [done|]. by apply upload_own.
  - intros H1 H. apply IH; [done|]. by apply upload_foreign_Seeded.
Qed.

(** *** The completion of a dispatch *)

Lemma on_error_foreign b prefix uploader k m w :
  ¬ (uploader = u0 ∧ k = k0) → Inv b w → Inv b (on_error prefix uploader k m w).
Proof.
  intros Hne H. unfold on_error, commit.
  destruct (updateStatus uploader k error _ (store w)) as [s'|e] eqn:E; [|exact H].
  apply status_updateStatus in E. rewrite decide_False in E by done.
  apply Inv_publish_quiet; [done|by right].
Qed.

Lemma on_success_foreign b prefix uploader k u w :
  ¬ (uploader = u0 ∧ k = k0) → Inv b w → Inv b (on_success prefix uploader k u w).
Proof.
  intros Hne H. unfold on_success, commit.
  destruct (updateStatus uploader k success _ (store w)) as [s'|e] eqn:E;
    [|by apply on_error_foreign].
  apply status_updateStatus in E. rewrite decide_False in E by done.
  apply Inv_spawn; [done|]. apply Inv_publish_quiet; [done|by right].
Qed.

Lemma on_error_own prefix m w :
  count_writers u0 k0 (pending w) = 0 →
  inv false (omap (λ s, status_of s u0 k0) (observed w)) (status_of (store w) u0 k0) 1 →
  Inv false (on_error prefix u0 k0 m w).
Proof.
  intros Hn H. unfold on_error, commit.
  destruct (updateStatus u0 k0 error _ (store w)) as [s'|e] eqn:E.
  - apply status_updateStatus in E. rewrite decide_True in E by done.
    unfold Inv_at. rewrite rhist_publish. simpl. rewrite E, Hn. simpl.
    apply (inv_report _ (status_of (store w) u0 k0)); [done|by right].
  - unfold Inv_at. simpl. rewrite Hn. by apply (inv_drop_writer false _ _ 1).
Qed.

Lemma on_success_own prefix u w :
  count_writers u0 k0 (pending w) = 0 →
  inv false (omap (λ s, status_of s u0 k0) (observed w)) (status_of (store w) u0 k0) 1 →
  Inv false (on_success prefix u0 k0 u w).
Proof.
  intros Hn H. unfold on_success, commit.
  destruct (updateStatus u0 k0 success _ (store w)) as [s'|e] eqn:E;
    [|by apply on_error_own].
  apply status_updateStatus in E. rewrite decide_True in E by done.
  apply Inv_spawn; [done|].
  unfold Inv_at. rewrite rhist_publish. simpl. rewrite E, Hn. simpl.
  apply (inv_report _ (status_of (store w) u0 k0)); [done|by left].
Qed.

Lemma writes_to_target t :
  writes_to u0 k0 t = true →
  (∃ u, t = AwaitToken u0 k0 u) ∨ (∃ u, t = AwaitPut u0 k0 u)
  ∨ t = AwaitSigned u0 k0 ∨ (∃ u, t = AwaitSend u0 k0 u).
Proof.
  destruct t; simpl; try done; intros [-> ->]%bool_decide_eq_true; eauto.
Qed.

Lemma writes_to_foreign t uploader k :
  writes_to u0 k0 t = false →
  (∃ u, t = AwaitToken uploader k u) ∨ (∃ u, t = AwaitPut uploader k u)
  ∨ t = AwaitSigned uploader k ∨ (∃ u, t = AwaitSend uploader k u) →
  ¬ (uploader = u0 ∧ k = k0).
Proof.
  intros Hw Ht Heq.
  assert (writes_to u0 k0 t = bool_decide (uploader = u0 ∧ k = k0)) as E.
  { by destruct Ht as [[u ->]|[[u ->]|[->|[u ->]]]]. }
  rewrite E, bool_decide_true in Hw by done. done.
Qed.

Lemma settle_Inv b i a w : Inv b w → Inv b (settle i a w).
Proof.
  intros H. unfold settle.
  destruct (pending w !! i) as [t|] eqn:Hi; [|done].
  pose proof (count_writers_delete u0 k0 _ _ _ Hi) as Hcnt.
  destruct (writes_to u0 k0 t) eqn:Hw.
  - (* the dispatch of the record itself *)
    assert (count_writers u0 k0 (pending w) = 1
            ∧ count_writers u0 k0 (delete i (pending w)) = 0 ∧ b = false)
      as (H1 & H0 & ->).
    { destruct H as (_ & Hle & _ & Hf). split; [lia|]. split; [lia|].
      destruct b; [|done]. destruct (Hf eq_refl) as [_ ?]. lia. }
    assert (Inv false (settle_at i w)) as Hdrop.
    { unfold Inv_at in *. simpl. rewrite H0. rewrite H1 in H.
      by apply (inv_drop_writer false _ _ 1). }
    assert (∀ t', writes_to u0 k0 t' = true → Inv false (spawn t' (settle_at i w)))
      as Hspawn.
    { intros t' Ht'. unfold Inv_at in *. simpl. rewrite count_writers_app, H0.
      unfold count_writers at 1. simpl. rewrite Ht'. simpl. by rewrite <-H1. }
    assert (inv false (omap (λ s, status_of s u0 k0) (observed (settle_at i w)))
              (status_of (store (settle_at i w)) u0 k0) 1) as Hlast.
    { simpl. unfold Inv_at in H. by rewrite H1 in H. }
    apply writes_to_target in Hw as [[u ->]|[[u ->]|[->|[u ->]]]];
      destruct a as [[]|?|[]|[]|[]]; simpl; try done.
    + apply Hspawn. simpl. by rewrite bool_decide_true.
    + destruct (put_then x); [by apply on_success_own|by apply on_error_own].
    + apply Hspawn. simpl. by rewrite bool_decide_true.
    + by apply on_success_own.
    + by apply on_error_own.
  - (* any other one *)
    assert (Inv b (settle_at i w)) as H'.
    { unfold Inv_at in *. simpl. rewrite Hcnt in H. by rewrite Nat.add_0_r in H. }
    destruct t as [uploader k u|uploader k u|uploader k|uploader k u|uploader k u];
      destruct a as [[]|?|[]|[]|[]]; simpl; try done.
    + by apply Inv_spawn.
    + assert (¬ (uploader = u0 ∧ k = k0)) as Hne
        by (eapply writes_to_foreign; [done|]; eauto).
      destruct (put_then x); [by apply on_success_foreign|by apply on_error_foreign].
    + by apply Inv_spawn.
    + assert (¬ (uploader = u0 ∧ k = k0)) as Hne
        by (eapply writes_to_foreign; [done|]; eauto 6).
      by apply on_success_foreign.
    + assert (¬ (uploader = u0 ∧ k = k0)) as Hne
        by (eapply writes_to_foreign; [done|]; eauto 6).
      by apply on_error_foreign.
    + unfold commit.
      destruct (updateFile uploader k a u (store (settle_at i w))) as [s'|e] eqn:E;
        [|done].
      apply status_updateFile in E. apply Inv_publish_quiet; [done|by right].
Qed.

(** *** Every event *)

Lemma generated_own uploader fs config :
  generated P u0 k0 (UploadFiles uploader (Some fs) config)
  = own uploader (new_upload P <$> fs).
Proof. done. Qed.

Lemma uploadFiles_Inv_quiet b uploader fs config w :
  generated P u0 k0 (UploadFiles uploader fs config) = 0 →
  Inv b w → Inv b (returned (uploadFiles P uploader fs config w) w).
Proof.
  intros Hg H. unfold uploadFiles. destruct fs as [fs|]; [|done].
  rewrite generated_own in Hg. unfold commit.
  destruct (update uploader _ (store w)) as [s1|e] eqn:E; [|done]. simpl.
  apply foldl_upload_foreign; [done|].
  apply status_seed in E. rewrite decide_False in E.
  - apply Inv_publish_quiet; [done|by right].
  - intros [-> Hin]. unfold own_at in Hg. rewrite decide_True in Hg by done.
    by apply filter_key_length in Hg.
Qed.

Lemma uploadFiles_Inv_gen uploader fs config w :
  generated P u0 k0 (UploadFiles uploader fs config) = 1 →
  Inv true w → Inv false (returned (uploadFiles P uploader fs config w) w).
Proof.
  intros Hg H. unfold uploadFiles. destruct fs as [fs|]; [|done].
  rewrite generated_own in Hg. unfold commit.
  destruct (update uploader _ (store w)) as [s1|e] eqn:E; [|by apply (inv_weaken true)].
  simpl. apply foldl_upload_own; [done|].
  apply status_seed in E. rewrite decide_True in E.
  - destruct H as (_ & _ & _ & Hf). destruct (Hf eq_refl) as [Hh Hn].
    unfold Seeded_at. rewrite rhist_publish. simpl. rewrite E, Hh, Hn. simpl.
    split; [|done]. split; [apply shape_first|by intros ? [= ->]].
  - unfold own_at in Hg. destruct (decide (uploader = u0)); [|done]. split; [done|].
    apply filter_key_length. lia.
Qed.

Lemma step_Inv_quiet b w e :
  generated P u0 k0 e = 0 → Inv b w → Inv b (step P w e).
Proof.
  intros Hg H.
  destruct e as [uploader fs config|uploader|uploader u|creds rgn|k cl cfg|i a]; simpl.
  - by apply uploadFiles_Inv_quiet.
  - unfold commit. destruct (clear uploader (store w)) as [s'|] eqn:E; [|done].
    simpl. apply Inv_publish_quiet; [done|]. by apply status_clear in E.
  - unfold commit. destruct (removeByURL uploader u (store w)) as [s'|] eqn:E; [|done].
    simpl. apply Inv_publish_quiet; [done|]. by apply status_removeByURL in E.
  - unfold createClient. destruct (new_URL P _); [|done]. simpl.
    apply Inv_publish_quiet; [done|]. by right.
  - destruct (useUploader_effect_cases k cl cfg w) as [[_ ->]|[_ ->]]; [|done].
    apply Inv_publish_quiet; [done|]. rewrite status_with_uploader.
    case_decide; [left|by right]. simpl. by rewrite lookup_empty.
  - by apply settle_Inv.
Qed.

Lemma step_Inv_gen w e :
  generated P u0 k0 e = 1 → Inv true w → Inv false (step P w e).
Proof.
  intros Hg H. destruct e; try done. simpl. by apply uploadFiles_Inv_gen.
Qed.

Lemma run_snoc w es e : run P w (es ++ [e])%list = step P (run P w es) e.
Proof. unfold run. by rewrite foldl_app. Qed.

Lemma run_Inv es :
  generations P u0 k0 es ≤ 1 →
  Inv (bool_decide (generations P u0 k0 es = 0)) (run P init es).
Proof.
  induction es as [|e es IH] using rev_ind; intros Hg.
  - unfold Inv_at, count_writers. simpl.
    split; [split; [apply shape_nil|done]|]. split; [lia|]. split; done.
  - rewrite run_snoc. unfold generations in *.
    rewrite sum_list_with_app in *. simpl in *. rewrite Nat.add_0_r in *.
    destruct (generated P u0 k0 e) as [|[|n]] eqn:Hgen.
    + rewrite Nat.add_0_r in *. apply step_Inv_quiet; [done|]. apply IH. lia.
    + assert (sum_list_with (generated P u0 k0) es = 0) as H0 by lia.
      rewrite H0 in *. simpl. apply step_Inv_gen; [done|]. apply IH. lia.
    + lia.
Qed.

(** C6, as the code has it: when the key of the record is given out once
    (no second file with the same name read in the same millisecond for
    the same uploader), the statuses the record has in the states the
    store goes through are some [initial], then some [loading], then some
    of one of [success] and [error]; [loading] is there when a terminal
    status is, and [initial] when [loading] is. *)
Theorem status_history_is_a_lifecycle_prefix (es : list Event) :
  generations P u0 k0 es ≤ 1 →
  ∃ (a b c : nat) (t : Status), (t = success ∨ t = error)
    ∧ history (run P init es) u0 k0
      = (replicate a initial ++ replicate b loading ++ replicate c t)%list
    ∧ (0 < c → 0 < b) ∧ (0 < b → 0 < a).
Proof.
  intros Hg. destruct (run_Inv es Hg) as ([Hs _] & _).
  destruct (shape_stages _ Hs) as (a & b & c & t & Ht & Hh & Hcb & Hba).
  exists a, b, c, t. split; [done|]. split; [|by split].
  unfold history. rewrite Hh, !reverse_app, !reverse_replicate.
  by rewrite <-(assoc_L (++)).
Qed.

End Lifecycle.

(** ** The keys of a reachable store *)






Section ReachableKeys.

Variable P : Platform.











End ReachableKeys.

(** ** [getMostRecent] on a reachable store *)


Lemma upload_store (P : Platform) uploader f config w :
  store (upload P uploader f config w)
  = match updateStatus uploader (key_of f) loading None (store w) with
    | Ok s' => s'
    | Throw _ => store w
    end.
Proof.
  unfold upload, commit, upload_credentials.
  destruct (updateStatus _ _ _ _ _); [|done]. repeat case_match; done.
Qed.

Lemma updateStatus_loading uploader k s draft f :
  uploaders s !! uploader = Some draft → files draft !! k = Some f →
  updateStatus uploader k loading None s
  = Ok (with_uploader uploader
          (with_files (<[k := with_status loading f]> (files draft)) draft) s).
Proof. intros Hd Hf. unfold updateStatus, update. by rewrite Hd, Hf. Qed.






Lemma status_history_is_a_lifecycle_prefix_witness :
  generations demo "chat" photo_key
    [UploaderEffect "chat" None proxy_config;
     UploadFiles "chat" (Some [(photo, 1000%Z); (clip, 1000%Z)]) proxy_config;
     Settle 0 (Token (Resolved "secret"));
     Clear "chat";
     UploadFiles "chat" (Some [(clip, 1001%Z)]) proxy_config;
     Settle 1 (status_500 "quota exceeded")] ≤ 1
  ∧ ∃ (a b c : nat) (t : Status), (t = success ∨ t = error)
      ∧ history (run demo init
          [UploaderEffect "chat" None proxy_config;
           UploadFiles "chat" (Some [(photo, 1000%Z); (clip, 1000%Z)]) proxy_config;
           Settle 0 (Token (Resolved "secret"));
           Clear "chat";
           UploadFiles "chat" (Some [(clip, 1001%Z)]) proxy_config;
           Settle 1 (status_500 "quota exceeded")]) "chat" photo_key
        = (replicate a initial ++ replicate b loading ++ replicate c t)%list
      ∧ (0 < c → 0 < b) ∧ (0 < b → 0 < a).
Proof.
  assert (generations demo "chat" photo_key
    [UploaderEffect "chat" None proxy_config;
     UploadFiles "chat" (Some [(photo, 1000%Z); (clip, 1000%Z)]) proxy_config;
     Settle 0 (Token (Resolved "secret"));
     Clear "chat";
     UploadFiles "chat" (Some [(clip, 1001%Z)]) proxy_config;
     Settle 1 (status_500 "quota exceeded")] ≤ 1) as H.
  { vm_compute. lia. }
  split; [exact H|]. exact (status_history_is_a_lifecycle_prefix demo "chat" photo_key _ H).
Defined.

(** C6 as stated fails: two files with one name read in the same
    millisecond share a key and a record; both dispatches report on it,
    and the record goes from [success] to [error]. *)
Lemma shared_record_leaves_success :
  history (run demo init
    [UploaderEffect "chat" None proxy_config;
     UploadFiles "chat" (Some [(photo, 1000%Z); (photo, 1000%Z)]) proxy_config;
     Settle 0 (Token (Resolved "secret"));
     Settle 0 (Token (Resolved "secret"));
     Settle 0 (ok_200 "https://cdn.example/photo.png");
     Settle 0 (status_500 "quota exceeded")]) "chat" photo_key
  = [initial; loading; loading; success; error].
Proof. vm_compute. reflexivity. Qed.

(** * Further properties of the module *)

(** ** [prefixEndpoint] and the strings of [createClient] *)

Lemma prefix_app (p s : string) : String.prefix p (p +:+ s) = true.
Proof.
  induction p as [|c p IH]; simpl; [by destruct s|].
  by destruct (ascii_dec c c).
Qed.

Lemma includes_app (p s : string) : includes p (p +:+ s) = true.
Proof.
  pose proof (prefix_app p s) as Hp.
  destruct (p +:+ s); unfold includes; fold includes; by rewrite Hp.
Qed.

Lemma prefix_inv (p s : string) : String.prefix p s = true → ∃ b, s = p +:+ b.
Proof.
  revert s. induction p as [|c p IH]; intros s; [intros _; by exists s|].
  destruct s as [|d s]; [done|]. simpl.
  destruct (ascii_dec c d) as [->|]; [|done].
  intros [b ->]%IH. by exists b.
Qed.
Lemma includes_occurs (p s : string) :
  includes p s = true ↔ ∃ a b, s = a +:+ p +:+ b.
Proof.
  split.
  - induction s as [|c s IH]; cbn [includes].
    + rewrite orb_false_r. intros [b Hb]%prefix_inv. exists "", b. exact Hb.
    + intros [[b Hb]%prefix_inv|(a & b & ->)%IH]%orb_true_iff.
      * exists "", b. exact Hb.
      * by exists (String c a), b.
  - intros (a & b & ->). induction a as [|c a IH]; [exact (includes_app p b)|].
    change (String.prefix p (String c (a +:+ p +:+ b))
            || includes p (a +:+ p +:+ b) = true).
    rewrite IH. apply orb_true_r.
Qed.

(** X1: [prefixEndpoint] returns the endpoint as it is when ["http://"]
    or ["https://"] occurs anywhere in it, and the endpoint with
    ["https://"] before it when neither occurs; applying it twice is
    applying it once. *)
Theorem prefixEndpoint_idempotent (e : string) :
  ((∃ a b, e = a +:+ "http://" +:+ b) ∨ (∃ a b, e = a +:+ "https://" +:+ b) →
   prefixEndpoint e = e)
  ∧ (¬ ((∃ a b, e = a +:+ "http://" +:+ b) ∨ (∃ a b, e = a +:+ "https://" +:+ b)) →
     prefixEndpoint e = "https://" +:+ e)
  ∧ prefixEndpoint (prefixEndpoint e) = prefixEndpoint e.
Proof.
  assert (includes "http://" e || includes "https://" e = true
          ↔ (∃ a b, e = a +:+ "http://" +:+ b) ∨ (∃ a b, e = a +:+ "https://" +:+ b))
    as Hocc by (by rewrite orb_true_iff, !includes_occurs).
  unfold prefixEndpoint.
  destruct (includes "http://" e || includes "https://" e) eqn:E.
  - rewrite E. split; [done|split; [|done]].
    intros Hn. destruct Hn. by apply Hocc.
  - rewrite (includes_app "https://" e), orb_true_r. split; [|done].
    intros H. apply Hocc in H. discriminate.
Qed.

Lemma prefixEndpoint_idempotent_witness :
  prefixEndpoint "http://localhost:9000" = "http://localhost:9000"
  ∧ prefixEndpoint "s3.example" = "https://s3.example".
Proof.
  destruct (prefixEndpoint_idempotent "http://localhost:9000") as (Hkeep & _ & _).
  destruct (prefixEndpoint_idempotent "s3.example") as (_ & Hadd & _).
  split.
  - apply Hkeep. left. by exists "", "localhost:9000".
  - apply Hadd.
    intros [H|H]; apply includes_occurs in H; vm_compute in H; discriminate.
Defined.

Lemma slice_0_m1_snoc (s : string) (c : ascii) : slice_0_m1 (s +:+ String c "") = s.
Proof.
  induction s as [|d s IH]; simpl; [done|].
  rewrite IH. by destruct s.
Qed.

Lemma split_query_0_free (s : string) : query_free (split_query_0 s) = true.
Proof.
  induction s as [|c s IH]; simpl; [done|].
  case_bool_decide; simpl; [done|]. by rewrite bool_decide_false.
Qed.

Lemma split_query_0_app (a b : string) :
  query_free a = true → split_query_0 (a +:+ "?" +:+ b) = a.
Proof.
  induction a as [|c a IH]; simpl; [done|].
  case_bool_decide as E; simpl; [done|]. intros Ha. by rewrite IH.
Qed.

Lemma split_query_0_id (s : string) : query_free s = true → split_query_0 s = s.
Proof.
  induction s as [|c s IH]; simpl; [done|].
  case_bool_decide as E; simpl; [done|]. intros Hs. by rewrite IH.
Qed.

(** X2: [res.split('?')[0]] is the part of [res] before its first ["?"]:
    it contains no ["?"], it is all of [res] when [res] has none, and it
    gives back [a] from [a?b] when [a] has none. *)
Theorem split_query_0_spec :
  (∀ s, query_free (split_query_0 s) = true)
  ∧ (∀ s, query_free s = true → split_query_0 s = s)
  ∧ (∀ a b, query_free a = true → split_query_0 (a +:+ "?" +:+ b) = a).
Proof.
  split; [exact split_query_0_free|]. split; [exact split_query_0_id|].
  exact split_query_0_app.
Qed.

Lemma split_query_0_spec_witness :
  split_query_0 "https://s3.example/att/~zod/1000-photo.png"
  = "https://s3.example/att/~zod/1000-photo.png"
  ∧ split_query_0 ("https://s3.example/att/~zod/1000-photo.png" +:+ "?"
                   +:+ "X-Amz-Signature=abc?def")
    = "https://s3.example/att/~zod/1000-photo.png".
Proof.
  destruct split_query_0_spec as (_ & Hid & Happ).
  split; [apply Hid|apply Happ]; vm_compute; reflexivity.
Defined.

(** X3: when the endpoint parses, [createClient] puts in the slot a
    client with the protocol of the url without its last character (the
    colon), its host, its path or ["/"] when the path is empty, the given
    region or ["us-east-1"] when it is empty, the credentials as given
    and path-style addressing; the uploaders are not touched. When the
    endpoint does not parse it raises. *)
Theorem createClient_normalises (P : Platform) (creds : StorageCredentials)
    (rgn : string) (w : World) :
  match new_URL P (prefixEndpoint (endpoint creds)) with
  | Some e =>
      ∃ w' c, createClient P creds rgn w = Ok w'
        ∧ client (store w') = Some c
        ∧ (∀ p, protocol e = p +:+ ":" → client_protocol c = p)
        ∧ client_hostname c = host e
        ∧ client_path c = (if bool_decide (pathname e = "") then "/" else pathname e)
        ∧ client_region c = (if bool_decide (rgn = "") then "us-east-1" else rgn)
        ∧ client_credentials c = creds
        ∧ forcePathStyle c = true
        ∧ uploaders (store w') = uploaders (store w)
  | None => ¬ is_Ok (createClient P creds rgn w)
  end.
Proof.
  unfold createClient. destruct (new_URL P _) as [e|]; [|by intros []].
  eexists _, _. split; [reflexivity|]. simpl. split; [reflexivity|].
  split; [intros p ->; apply slice_0_m1_snoc|].
  unfold or_else, truthy. repeat split; repeat case_bool_decide; done.
Qed.

(** ** The answer to the PUT *)

(** X4: the [.then] callback of the PUT reaches [updateStatus(..,
    'success')] exactly when the PUT was answered with status 200 and
    the follow-up request gave the url. With any other status, 201 or
    204 included, it throws the response body, or
    ["Incorrect response status"] when the body is empty, or what reading
    the body was rejected with; a rejected PUT and a rejected follow-up
    request are passed on as they are. *)
Theorem put_then_only_200 (x : PutExchange) :
  (∀ u, put_then x = Resolved u ↔
        ∃ response, put_response x = Resolved response
                    ∧ resp_status response = 200%Z ∧ get_json x = Resolved u)
  ∧ (∀ response, put_response x = Resolved response →
       resp_status response ≠ 200%Z →
       (∀ body, resp_text response = Resolved body → body ≠ "" →
          put_then x = Rejected body)
       ∧ (resp_text response = Resolved "" →
          put_then x = Rejected "Incorrect response status")
       ∧ (∀ m, resp_text response = Rejected m → put_then x = Rejected m))
  ∧ (∀ m, put_response x = Rejected m → put_then x = Rejected m)
  ∧ (∀ response m, put_response x = Resolved response →
       resp_status response = 200%Z → get_json x = Rejected m →
       put_then x = Rejected m).
Proof.
  unfold put_then. split; [|split; [|split]].
  - intros u. destruct (put_response x) as [response|m]; [|split; [done|by intros (? & ? & _)]].
    case_bool_decide as E.
    + split; [by destruct (resp_text response)|]. intros (r & [= <-] & ? & _). done.
    + split; [by eauto|]. by intros (_ & _ & _ & ->).
  - intros response -> Hne. rewrite bool_decide_true by done.
    split; [|split].
    + intros body -> Hbody. unfold or_else, truthy. by rewrite bool_decide_true.
    + by intros ->.
    + by intros m ->.
  - by intros m ->.
  - intros response m -> Hst ->. by rewrite bool_decide_false by (by intros []).
Qed.

Lemma put_then_only_200_witness :
  put_then {| put_response := Resolved {| resp_status := 201; resp_text := Resolved "" |};
              get_json := Resolved "https://cdn.example/photo.png" |}
  = Rejected "Incorrect response status"
  ∧ put_then {| put_response :=
                  Resolved {| resp_status := 500; resp_text := Resolved "quota exceeded" |};
                get_json := Rejected "" |}
    = Rejected "quota exceeded".
Proof.
  split.
  - destruct (put_then_only_200
                {| put_response := Resolved {| resp_status := 201; resp_text := Resolved "" |};
                   get_json := Resolved "https://cdn.example/photo.png" |})
      as (_ & H & _).
    destruct (H {| resp_status := 201; resp_text := Resolved "" |})
      as (_ & Hempty & _); [reflexivity|simpl; lia|].
    apply Hempty. reflexivity.
  - destruct (put_then_only_200
                {| put_response :=
                     Resolved {| resp_status := 500; resp_text := Resolved "quota exceeded" |};
                   get_json := Rejected "" |})
      as (_ & H & _).
    destruct (H {| resp_status := 500; resp_text := Resolved "quota exceeded" |})
      as (Hbody & _); [reflexivity|simpl; lia|].
    apply Hbody; [reflexivity|discriminate].
Defined.

Lemma createClient_normalises_witness :
  ∃ w' c, createClient demo creds_a "" init = Ok w'
    ∧ client (store w') = Some c
    ∧ client_protocol c = "https" ∧ client_hostname c = "https://s3.example"
    ∧ client_path c = "/" ∧ client_region c = "us-east-1".
Proof.
  pose proof (createClient_normalises demo creds_a "" init) as H.
  simpl in H. destruct H as (w' & c & Hw & Hc & Hp & Hh & Hpath & Hr & _).
  exists w', c. split; [exact Hw|]. split; [exact Hc|].
  split; [by apply Hp|]. split; [exact Hh|]. split; [exact Hpath|exact Hr].
Defined.

(** ** [getMostRecent], [clear], [updateFile], [removeByURL] *)

Lemma le_empty (k : string) : code_unit_le k "" → k = "".
Proof.
  intros H. apply code_unit_le_antisym; [done|].
  unfold code_unit_le, String.le, String.leb. simpl. by destruct (ranks k).
Qed.

Lemma map_to_list_keys {A} (m : gmap string A) (x : string) :
  x ∈ (map_to_list m).*1 ↔ is_Some (m !! x).
Proof.
  rewrite list_elem_of_fmap. split.
  - intros ([x' v] & -> & Hin). apply elem_of_map_to_list in Hin. eauto.
  - intros [v Hv]. exists (x, v). split; [done|]. by apply elem_of_map_to_list.
Qed.

(** X5: [getMostRecent] is absent exactly when the uploader does not
    exist or has no record under a non-empty key (a record stored under
    the empty key is never returned); what it returns otherwise is a
    record of that uploader, the one under the key that sorts last by
    code unit. *)
Theorem getMostRecent_characterised (s : FileStore) (k : string) :
  (getMostRecent k s = None ↔
     uploaders s !! k = None
     ∨ ∃ up, uploaders s !! k = Some up ∧ ∀ k', is_Some (files up !! k') → k' = "")
  ∧ (∀ r, getMostRecent k s = Some r →
       ∃ up fileKey, uploaders s !! k = Some up ∧ files up !! fileKey = Some r
         ∧ fileKey ≠ "" ∧ ∀ k', is_Some (files up !! k') → code_unit_le k' fileKey).
Proof.
  unfold getMostRecent.
  destruct (uploaders s !! k) as [up|]; [|split; [split; auto|done]].
  pose proof (last_sorted_greatest (fst <$> map_to_list (files up))) as H.
  destruct (last_key _) as [m|].
  - destruct H as [Hin Hle]. apply map_to_list_keys in Hin as [r Hr].
    unfold truthy. case_bool_decide as Hm.
    + rewrite Hr. split.
      * split; [done|]. intros [?|(up' & [= <-] & Hall)]; [done|].
        destruct Hm. apply Hall. eauto.
      * intros r' [= <-]. exists up, m. repeat split; [done..|].
        intros k' Hk'. by apply Hle, map_to_list_keys.
    + subst m. split; [|done].
      split; [|done]. intros _. right. exists up. split; [done|].
      intros k' Hk'. apply le_empty, Hle. by apply map_to_list_keys.
  - split; [|done]. split; [|done]. intros _. right. exists up. split; [done|].
    intros k' Hk'. apply map_to_list_keys in Hk'. rewrite H in Hk'.
    by apply elem_of_nil in Hk'.
Qed.

(** Two files whose names bytes and code units order differently: the
    record returned is the one of [wide_a], which sorts last by code
    unit and first by byte. *)
Lemma getMostRecent_characterised_witness :
  let w := run demo init
             [UploaderEffect "chat" None proxy_config;
              UploadFiles "chat" (Some [(wide_a, 1000%Z); (face, 1000%Z)])
                proxy_config] in
  String.le (make_key demo wide_a 1000) (make_key demo face 1000)
  ∧ ∃ up fileKey r, getMostRecent "chat" (store w) = Some r
      ∧ file r = Some wide_a
      ∧ uploaders (store w) !! "chat" = Some up
      ∧ files up !! fileKey = Some r ∧ fileKey ≠ ""
      ∧ code_unit_le (make_key demo face 1000) fileKey.
Proof.
  intros w. split; [vm_compute; exact I|].
  destruct (getMostRecent_characterised (store w) "chat") as [_ H].
  assert (∃ r, getMostRecent "chat" (store w) = Some r ∧ file r = Some wide_a)
    as (r & E & Hf) by (eexists; split; vm_compute; reflexivity).
  destruct (H r E) as (up & fileKey & Hup & Hr & Hne & Hmax).
  assert (is_Some (lookup_file (store w) "chat" (make_key demo face 1000))) as Hface
    by (vm_compute; eexists; reflexivity).
  exists up, fileKey, r.
  split; [exact E|]. split; [exact Hf|]. split; [exact Hup|]. split; [exact Hr|].
  split; [exact Hne|]. apply Hmax.
  unfold lookup_file in Hface. rewrite Hup in Hface. exact Hface.
Defined.

Lemma clear_Ok (uploader : string) (s : FileStore) (up : Uploader) :
  uploaders s !! uploader = Some up →
  clear uploader s = Ok (with_uploader uploader (with_files ∅ up) s).
Proof. intros H. unfold clear, update. by rewrite H. Qed.

(** X6: [clear] on an existing uploader empties its mapping and keeps
    the uploader itself, with its bindings; the other uploaders and the
    client stay as they are, [getMostRecent] is absent afterwards, and
    clearing again changes nothing. On a key without uploader it raises. *)
Theorem clear_empties_and_keeps_uploader (s : FileStore) (uploader : string) :
  match uploaders s !! uploader with
  | Some up =>
      ∃ s', clear uploader s = Ok s'
        ∧ uploaders s' !! uploader
          = Some {| files := ∅; bound_key := bound_key up;
                    bound_config := bound_config up |}
        ∧ (∀ other, other ≠ uploader → uploaders s' !! other = uploaders s !! other)
        ∧ client s' = client s
        ∧ getMostRecent uploader s' = None
        ∧ clear uploader s' = Ok s'
  | None => ¬ is_Ok (clear uploader s)
  end.
Proof.
  destruct (uploaders s !! uploader) as [up|] eqn:Hup.
  - eexists. split; [by apply clear_Ok|]. simpl.
    split; [by rewrite lookup_insert_eq|].
    split; [by intros other Hne; rewrite lookup_insert_ne|]. split; [done|].
    split.
    + eapply getMostRecent_empty; [simpl; apply lookup_insert_eq|done].
    + erewrite clear_Ok by (simpl; apply lookup_insert_eq).
      unfold with_uploader, with_files. simpl. by rewrite insert_insert_eq.
  - unfold clear, update. rewrite Hup. by intros [].
Qed.

(** X7: [clear] does not stop what is in flight. When the measurement of
    an image resolves after its uploader was cleared, [updateFile] does
    not raise: it stores under the old key an object that has the url and
    the size and no [file], [key] or [status], and [getMostRecent]
    returns that object. *)
Theorem late_image_size_restores_a_bare_record (P : Platform) (w : World) (i : nat)
    (uploader k u : string) (sz : Z * Z) :
  pending w !! i = Some (AwaitImage uploader k u) →
  is_Some (uploaders (store w) !! uploader) →
  k ≠ "" →
  let w' := settle i (ImageSize (Resolved sz)) (step P w (Clear uploader)) in
  lookup_file (store w') uploader k
    = Some {| file := None; key := None; status := None; url := u; size := sz;
              errorMessage := None |}
  ∧ getMostRecent uploader (store w') = lookup_file (store w') uploader k
  ∧ unhandled w' = unhandled w.
Proof.
  intros Hi [up Hup] Hk w'. subst w'.
  assert (step P w (Clear uploader)
          = publish (with_uploader uploader (with_files ∅ up) (store w)) w) as ->.
  { simpl. unfold commit. by rewrite (clear_Ok _ _ _ Hup). }
  rewrite (settle_pending _ _ (AwaitImage uploader k u)) by exact Hi. simpl.
  unfold commit, updateFile, update. simpl. rewrite lookup_insert_eq. simpl.
  rewrite lookup_empty. simpl.
  assert (lookup_file
            (with_uploader uploader
               (with_files (<[k := patch None sz u]> ∅) (with_files ∅ up))
               (with_uploader uploader (with_files ∅ up) (store w))) uploader k
          = Some (patch None sz u)) as Hl.
  { rewrite lookup_file_with_uploader, decide_True by done. simpl.
    apply lookup_insert_eq. }
  unfold patch in Hl. split; [exact Hl|]. split; [|done]. rewrite Hl.
  eapply getMostRecent_greatest; [simpl; apply lookup_insert_eq| | |done].
  - simpl. apply lookup_insert_eq.
  - simpl. intros k' [<-|[_ H]]%lookup_insert_is_Some; [apply code_unit_le_refl|].
    rewrite lookup_empty in H. by destruct H.
Qed.

Lemma late_image_size_restores_a_bare_record_witness :
  let w := run demo one_in_flight
             [Settle 0 (Token (Resolved "secret"));
              Settle 0 (ok_200 "https://cdn.example/photo.png")] in
  let w' := settle 0 (ImageSize (Resolved (640, 480)%Z)) (step demo w (Clear "chat")) in
  pending w !! 0 = Some (AwaitImage "chat" photo_key "https://cdn.example/photo.png")
  ∧ (status <$> getMostRecent "chat" (store w')) = Some None
  ∧ (url <$> getMostRecent "chat" (store w')) = Some "https://cdn.example/photo.png".
Proof.
  intros w w'.
  assert (pending w !! 0
          = Some (AwaitImage "chat" photo_key "https://cdn.example/photo.png")) as Hi
    by (vm_compute; reflexivity).
  assert (is_Some (uploaders (store w) !! "chat")) as Hu by (vm_compute; eauto).
  assert (photo_key ≠ "") as Hk by discriminate.
  split; [exact Hi|].
  destruct (late_image_size_restores_a_bare_record demo w 0 "chat" photo_key
              "https://cdn.example/photo.png" (640, 480)%Z Hi Hu Hk) as (Hl & Hg & _).
  unfold w'. rewrite Hg, Hl. split; reflexivity.
Defined.

(** X8: calling [removeByURL] again with the same url changes nothing,
    and two calls with different urls give the same store in either
    order. *)
Theorem removeByURL_idempotent_commutes (s : FileStore) (uploader a b : string)
    (up : Uploader) :
  uploaders s !! uploader = Some up →
  ∃ sa sb sab, removeByURL uploader a s = Ok sa
    ∧ removeByURL uploader a sa = Ok sa
    ∧ removeByURL uploader b s = Ok sb
    ∧ removeByURL uploader b sa = Ok sab
    ∧ removeByURL uploader a sb = Ok sab.
Proof.
  intros Hup. eexists _, _, _.
  split; [by apply removeByURL_Ok|].
  split.
  { erewrite removeByURL_Ok by (simpl; apply lookup_insert_eq).
    unfold with_uploader, with_files. simpl. rewrite insert_insert_eq.
    by rewrite map_filter_filter_l. }
  split; [by apply removeByURL_Ok|].
  split.
  { erewrite removeByURL_Ok by (simpl; apply lookup_insert_eq).
    unfold with_uploader, with_files. simpl. rewrite insert_insert_eq. reflexivity. }
  erewrite removeByURL_Ok by (simpl; apply lookup_insert_eq).
  unfold with_uploader, with_files. simpl. rewrite insert_insert_eq.
  by rewrite (map_filter_comm (λ kf, url kf.2 ≠ a)).
Qed.

Lemma removeByURL_idempotent_commutes_witness :
  ∃ sa, removeByURL "chat" "" (store one_in_flight) = Ok sa
    ∧ removeByURL "chat" "" sa = Ok sa.
Proof.
  assert (∃ up, uploaders (store one_in_flight) !! "chat" = Some up) as [up Hup].
  { vm_compute. eauto. }
  destruct (removeByURL_idempotent_commutes (store one_in_flight) "chat" "" "x" up Hup)
    as (sa & _ & _ & H1 & H2 & _).
  by exists sa.
Defined.

(** ** What every reachable store satisfies *)

Lemma record_ok_with_status (P : Platform) (k : string) (r : Upload) (st : Status) :
  st ≠ error → record_ok P k r → record_ok P k (with_status st r).
Proof.
  intros Hst (Hkey & Herr & Hmsg). split; [|split; [|done]].
  - destruct Hkey as [(? & ? & ?)|?]; [left|by right]. simpl. eauto.
  - simpl. by intros [= ->].
Qed.

Lemma record_ok_with_error (P : Platform) (k m : string) (r : Upload) :
  backend_message m → m ≠ "" → record_ok P k r →
  record_ok P k (with_errorMessage m (with_status error r)).
Proof.
  intros Hb Hm (Hkey & Herr & Hmsg). split; [|split].
  - destruct Hkey as [(? & ? & ?)|?]; [left|by right]. simpl. eauto.
  - simpl. eauto.
  - simpl. by intros ? [= <-].
Qed.

Lemma record_ok_patch (P : Platform) (k : string) (current : option Upload)
    (sz : Z * Z) (u : string) :
  (∀ r, current = Some r → record_ok P k r) → record_ok P k (patch current sz u).
Proof.
  intros H. destruct current as [r|]; simpl.
  - destruct (H r eq_refl) as (Hkey & Herr & Hmsg). done.
  - split; [by right|]. split; [done|done].
Qed.

Lemma record_ok_new_upload (P : Platform) (ft : File * Z) :
  record_ok P (make_key P ft.1 ft.2) (new_upload P ft).
Proof.
  split; [left|split; [done|done]]. simpl. split; [done|]. split; [eauto|]. eauto.
Qed.

Lemma sound_update (P : Platform) (k : string) (updateFn : Uploader → result Uploader)
    (s s' : FileStore) :
  update k updateFn s = Ok s' → records_ok P s → bindings_ok s →
  (∀ draft draft', uploaders s !! k = Some draft → updateFn draft = Ok draft' →
     (∀ fk r, files draft !! fk = Some r → record_ok P fk r) →
     bound_key draft' = bound_key draft
     ∧ ∀ fk r, files draft' !! fk = Some r → record_ok P fk r) →
  records_ok P s' ∧ bindings_ok s'.
Proof.
  rewrite update_Ok. intros (draft & draft' & Hd & Hf & ->) Hrec Hbind Hnew.
  destruct (Hnew _ _ Hd Hf (λ fk r, Hrec _ _ fk r Hd)) as [Hb Hr]. split.
  - intros uploader up fk r. simpl.
    destruct (decide (k = uploader)) as [<-|Hne].
    + rewrite lookup_insert_eq. intros [= <-]. apply Hr.
    + rewrite lookup_insert_ne by done. apply Hrec.
  - intros uploader up. simpl.
    destruct (decide (k = uploader)) as [<-|Hne].
    + rewrite lookup_insert_eq. intros [= <-]. rewrite Hb. by apply Hbind.
    + rewrite lookup_insert_ne by done. apply Hbind.
Qed.

Lemma sound_updateStatus (P : Platform) uploader k st msg s s' :
  updateStatus uploader k st msg s = Ok s' →
  (st = error → ∃ m, msg = Some m ∧ m ≠ "" ∧ backend_message m) →
  records_ok P s → bindings_ok s → records_ok P s' ∧ bindings_ok s'.
Proof.
  intros H Hmsg Hrec Hbind. eapply sound_update; [exact H|done..|].
  intros draft draft' Hd Hf Hold. cbv beta in Hf.
  destruct (files draft !! k) as [f|] eqn:E; [|done]. injection Hf as <-.
  split; [done|]. intros fk r. simpl.
  destruct (decide (k = fk)) as [<-|Hne]; [|rewrite lookup_insert_ne by done; apply Hold].
  rewrite lookup_insert_eq. intros [= <-].
  specialize (Hold _ _ E).
  destruct (decide (st = error)) as [->|Hst].
  - destruct (Hmsg eq_refl) as (m & -> & Hm & Hb).
    rewrite bool_decide_true by done. unfold truthy. rewrite bool_decide_true by done.
    simpl. by apply record_ok_with_error.
  - assert (record_ok P k (with_status st f)) by (by apply record_ok_with_status).
    destruct msg; [|done]. by rewrite bool_decide_false.
Qed.

Lemma sound_updateFile (P : Platform) uploader k sz u s s' :
  updateFile uploader k sz u s = Ok s' →
  records_ok P s → bindings_ok s → records_ok P s' ∧ bindings_ok s'.
Proof.
  intros H Hrec Hbind. eapply sound_update; [exact H|done..|].
  intros draft draft' Hd [= <-] Hold. split; [done|]. intros fk r. simpl.
  destruct (decide (k = fk)) as [<-|Hne]; [|rewrite lookup_insert_ne by done; apply Hold].
  rewrite lookup_insert_eq. intros [= <-]. apply record_ok_patch.
  intros r Hr. by eapply Hold.
Qed.

Lemma sound_clear (P : Platform) uploader s s' :
  clear uploader s = Ok s' →
  records_ok P s → bindings_ok s → records_ok P s' ∧ bindings_ok s'.
Proof.
  intros H Hrec Hbind. eapply sound_update; [exact H|done..|].
  intros draft draft' Hd [= <-] Hold. split; [done|]. intros fk r. simpl.
  by rewrite lookup_empty.
Qed.

Lemma sound_removeByURL (P : Platform) uploader u s s' :
  removeByURL uploader u s = Ok s' →
  records_ok P s → bindings_ok s → records_ok P s' ∧ bindings_ok s'.
Proof.
  intros H Hrec Hbind. eapply sound_update; [exact H|done..|].
  intros draft draft' Hd [= <-] Hold. split; [done|]. intros fk r. simpl.
  intros [Hr _]%map_lookup_filter_Some. by eapply Hold.
Qed.

Lemma sound_seed (P : Platform) uploader fs s s' :
  update uploader (λ draft,
    Ok (with_files (keyBy (new_upload P <$> fs) ∪ files draft) draft)) s = Ok s' →
  records_ok P s → bindings_ok s → records_ok P s' ∧ bindings_ok s'.
Proof.
  intros H Hrec Hbind. eapply sound_update; [exact H|done..|].
  intros draft draft' Hd [= <-] Hold. split; [done|]. intros fk r. simpl.
  intros [Hr|[_ Hr]]%lookup_union_Some_raw; [|by eapply Hold].
  apply keyBy_lookup_acc in Hr as [[Hin <-]|Hr]; [|by rewrite lookup_empty in Hr].
  apply list_elem_of_fmap in Hin as (ft & -> & _). apply record_ok_new_upload.
Qed.

Section SoundRuns.

Variable P : Platform.

Lemma Sound_commit (op : FileStore → result FileStore) (w w' : World) :
  commit op w = Ok w' →
  (∀ s', op (store w) = Ok s' → records_ok P s' ∧ bindings_ok s') →
  Sound P w'.
Proof.
  unfold commit. destruct (op (store w)) as [s'|]; [|done]. intros [= <-] H.
  by apply H.
Qed.

Lemma Sound_on_error (prefix : string → string) uploader k m w :
  prefix = tlon_error ∨ prefix = s3_error →
  Sound P w → Sound P (on_error prefix uploader k m w).
Proof.
  intros Hp [Hrec Hbind]. unfold on_error.
  destruct (commit _ w) as [w'|] eqn:E; [|done].
  eapply Sound_commit; [exact E|]. intros s' Hs'.
  eapply sound_updateStatus; [exact Hs'| |done..].
  intros _. eexists. split; [done|].
  destruct Hp as [-> | ->]; (split; [done|]); exists m; auto.
Qed.

Lemma Sound_on_success (prefix : string → string) uploader k u w :
  prefix = tlon_error ∨ prefix = s3_error →
  Sound P w → Sound P (on_success prefix uploader k u w).
Proof.
  intros Hp H. unfold on_success.
  destruct (commit _ w) as [w'|] eqn:E; [|by apply Sound_on_error].
  change (Sound P w'). destruct H as [Hrec Hbind].
  eapply Sound_commit; [exact E|]. intros s' Hs'.
  by eapply sound_updateStatus.
Qed.

Lemma Sound_upload uploader f config w :
  Sound P w → Sound P (upload P uploader f config w).
Proof.
  intros [Hrec Hbind]. unfold upload.
  destruct (commit _ w) as [w'|] eqn:E; [|done].
  assert (Sound P w') as H'.
  { eapply Sound_commit; [exact E|]. intros s' Hs'. by eapply sound_updateStatus. }
  unfold upload_credentials. repeat case_match; done.
Qed.

Lemma Sound_foldl_upload uploader config l w :
  Sound P w → Sound P (foldl (λ w' f, upload P uploader f config w') w l).
Proof.
  revert w. induction l as [|f l IH]; intros w H; simpl; [done|].
  by apply IH, Sound_upload.
Qed.

Lemma Sound_settle i a w : Sound P w → Sound P (settle i a w).
Proof.
  intros H. unfold settle. destruct (pending w !! i) as [t|]; [|done].
  assert (Sound P (settle_at i w)) as H' by done.
  destruct t, a as [[]|?|[]|[]|[]]; simpl; try done.
  - destruct (put_then x); [apply Sound_on_success|apply Sound_on_error]; auto.
  - apply Sound_on_success; auto.
  - apply Sound_on_error; auto.
  - destruct (commit _ _) as [w'|] eqn:E; [|done].
    eapply Sound_commit; [exact E|]. intros s' Hs'. destruct H'.
    by eapply sound_updateFile.
Qed.

Lemma Sound_step w e : Sound P w → Sound P (step P w e).
Proof.
  intros H.
  destruct e as [uploader fs config|uploader|uploader u|creds rgn|k cl cfg|i a]; simpl.
  - unfold uploadFiles. destruct fs as [fs|]; [|done].
    destruct (commit _ w) as [w1|] eqn:E; [|done]. simpl.
    apply Sound_foldl_upload. eapply Sound_commit; [exact E|]. intros s' Hs'.
    destruct H. by eapply sound_seed.
  - destruct (commit _ w) as [w1|] eqn:E; [|done]. simpl.
    eapply Sound_commit; [exact E|]. intros s' Hs'. destruct H. by eapply sound_clear.
  - destruct (commit _ w) as [w1|] eqn:E; [|done]. simpl.
    eapply Sound_commit; [exact E|]. intros s' Hs'. destruct H.
    by eapply sound_removeByURL.
  - unfold createClient. destruct (new_URL P _); [|done]. done.
  - destruct (useUploader_effect_cases k cl cfg w) as [[_ ->]|[_ ->]]; [|done].
    destruct H as [Hrec Hbind]. split.
    + intros uploader up fk r. simpl.
      destruct (decide (k = uploader)) as [<-|Hne].
      * rewrite lookup_insert_eq. intros [= <-]. simpl. by rewrite lookup_empty.
      * rewrite lookup_insert_ne by done. apply Hrec.
    + intros uploader up. simpl.
      destruct (decide (k = uploader)) as [<-|Hne].
      * rewrite lookup_insert_eq. by intros [= <-].
      * rewrite lookup_insert_ne by done. apply Hbind.
  - by apply Sound_settle.
Qed.

Lemma Sound_run es : Sound P (run P init es).
Proof.
  induction es as [|e es IH] using rev_ind.
  - split.
    + intros uploader up k r. simpl. by rewrite lookup_empty.
    + intros uploader up. simpl. by rewrite lookup_empty.
  - unfold run. rewrite foldl_app. simpl. by apply Sound_step.
Qed.

(** X9: on every store reached from the empty one, a record stored under
    a key either carries that key, a status and the file the key was made
    from, or is an object without [key] and without [file] (what
    [updateFile] leaves under a key that was removed). *)
Theorem reachable_records_carry_their_key (es : list Event) (uploader k : string)
    (up : Uploader) (r : Upload) :
  uploaders (store (run P init es)) !! uploader = Some up →
  files up !! k = Some r →
  (key r = Some k ∧ is_Some (status r)
   ∧ ∃ f t, file r = Some f ∧ k = make_key P f t)
  ∨ (key r = None ∧ file r = None).
Proof.
  intros Hup Hr. destruct (Sound_run es) as [Hrec _].
  by destruct (Hrec _ _ _ _ Hup Hr) as [? _].
Qed.

(** X10: on every such store, a record in status [error] has an error
    message, and an error message a record has is never empty and is one
    of ["Tlon Hosting upload error: .., contact support if it persists."]
    and ["S3 upload error: .., check your S3 configuration."]. *)
Theorem reachable_error_has_backend_message (es : list Event) (uploader k : string)
    (up : Uploader) (r : Upload) :
  uploaders (store (run P init es)) !! uploader = Some up →
  files up !! k = Some r →
  (status r = Some error → is_Some (errorMessage r))
  ∧ (∀ m, errorMessage r = Some m →
       m ≠ "" ∧ ∃ x, m = "Tlon Hosting upload error: " +:+ x
                         +:+ ", contact support if it persists."
                  ∨ m = "S3 upload error: " +:+ x +:+ ", check your S3 configuration.").
Proof.
  intros Hup Hr. destruct (Sound_run es) as [Hrec _].
  destruct (Hrec _ _ _ _ Hup Hr) as (_ & Herr & Hmsg). split; [done|].
  intros m Hm. destruct (Hmsg m Hm) as [Hb Hne]. by split.
Qed.

(** X11: on every such store, the closures of an uploader are bound to
    the key the uploader is stored under. *)
Theorem reachable_uploader_bound_to_its_key (es : list Event) (uploader : string)
    (up : Uploader) :
  uploaders (store (run P init es)) !! uploader = Some up →
  bound_key up = uploader.
Proof. intros Hup. destruct (Sound_run es) as [_ Hbind]. by apply Hbind. Qed.

End SoundRuns.

Lemma reachable_records_carry_their_key_witness :
  ∃ up r, uploaders (store (run demo init refused_upload)) !! "chat" = Some up
    ∧ files up !! photo_key = Some r
    ∧ ((key r = Some photo_key ∧ is_Some (status r)
        ∧ ∃ f t, file r = Some f ∧ photo_key = make_key demo f t)
       ∨ (key r = None ∧ file r = None)).
Proof.
  assert (∃ up, uploaders (store (run demo init refused_upload)) !! "chat" = Some up
                ∧ ∃ r, files up !! photo_key = Some r) as (up & Hup & r & Hr)
    by (eexists; split; [vm_compute; reflexivity|eexists; vm_compute; reflexivity]).
  exists up, r. split; [exact Hup|]. split; [exact Hr|].
  exact (reachable_records_carry_their_key demo refused_upload "chat" photo_key up r
           Hup Hr).
Defined.

Lemma reachable_error_has_backend_message_witness :
  ∃ up r, uploaders (store (run demo init refused_upload)) !! "chat" = Some up
    ∧ files up !! photo_key = Some r
    ∧ status r = Some error
    ∧ is_Some (errorMessage r).
Proof.
  assert (∃ up, uploaders (store (run demo init refused_upload)) !! "chat" = Some up
                ∧ ∃ r, files up !! photo_key = Some r ∧ status r = Some error)
    as (up & Hup & r & Hr & Hst)
    by (eexists; split; [vm_compute; reflexivity|
        eexists; split; vm_compute; reflexivity]).
  exists up, r. split; [exact Hup|]. split; [exact Hr|]. split; [exact Hst|].
  exact (proj1 (reachable_error_has_backend_message demo refused_upload "chat"
                  photo_key up r Hup Hr) Hst).
Defined.

Lemma reachable_uploader_bound_to_its_key_witness :
  ∃ up, uploaders (store (run demo init refused_upload)) !! "chat" = Some up
    ∧ bound_key up = "chat".
Proof.
  assert (∃ up, uploaders (store (run demo init refused_upload)) !! "chat" = Some up)
    as (up & Hup) by (eexists; vm_compute; reflexivity).
  exists up. split; [exact Hup|].
  exact (reachable_uploader_bound_to_its_key demo refused_upload "chat" up Hup).
Defined.

(** ** What no event undoes *)

Lemma evolves_mono (R R' : string → Prop) s s' :
  (∀ k, R k → R' k) → evolves R s s' → evolves R' s s'.
Proof.
  intros HR. induction 1; [apply evolves_refl|by apply evolves_files
                          |by apply evolves_client|by apply evolves_reset; auto].
Qed.

Lemma evolves_update (R : string → Prop) k updateFn s0 s s' :
  update k updateFn s = Ok s' →
  (∀ draft draft', updateFn draft = Ok draft' → ∃ fs, draft' = with_files fs draft) →
  evolves R s0 s → evolves R s0 s'.
Proof.
  rewrite update_Ok. intros (draft & draft' & Hd & Hf & ->) Hfiles H.
  destruct (Hfiles _ _ Hf) as [fs ->]. by apply evolves_files.
Qed.

Lemma evolves_updateStatus R uploader k st msg s0 s s' :
  updateStatus uploader k st msg s = Ok s' → evolves R s0 s → evolves R s0 s'.
Proof.
  intros H. eapply evolves_update; [exact H|].
  intros draft draft' Hf. cbv beta in Hf.
  destruct (files draft !! k); [|done]. injection Hf as <-. eauto.
Qed.

Lemma evolves_client_kept R s s' :
  evolves R s s' → is_Some (client s) → is_Some (client s').
Proof. induction 1; simpl; eauto. Qed.

Lemma evolves_uploader_kept R s s' k up :
  evolves R s s' → uploaders s !! k = Some up →
  ∃ up', uploaders s' !! k = Some up'
    ∧ (¬ R k → bound_key up' = bound_key up ∧ bound_config up' = bound_config up).
Proof.
  induction 1 as [|s' k' up1 fs H IH Hk'|s' c H IH|s' k' cfg H IH HR];
    intros Hup.
  - exists up. by split.
  - destruct (IH Hup) as (up' & Hup' & Hb). simpl.
    destruct (decide (k' = k)) as [->|Hne].
    + rewrite lookup_insert_eq. eexists. split; [done|]. simpl.
      rewrite Hup' in Hk'. by injection Hk' as <-.
    + rewrite lookup_insert_ne by done. eauto.
  - destruct (IH Hup) as (up' & Hup' & Hb). simpl. eauto.
  - destruct (IH Hup) as (up' & Hup' & Hb). simpl.
    destruct (decide (k' = k)) as [->|Hne].
    + rewrite lookup_insert_eq. eexists. split; [done|]. by intros [].
    + rewrite lookup_insert_ne by done. eauto.
Qed.

Section Evolution.

Variable P : Platform.
Variable R : string → Prop.
Variable s0 : FileStore.

Lemma evolves_commit_update k updateFn w w' :
  commit (update k updateFn) w = Ok w' →
  (∀ draft draft', updateFn draft = Ok draft' → ∃ fs, draft' = with_files fs draft) →
  evolves R s0 (store w) → evolves R s0 (store w').
Proof.
  unfold commit. destruct (update k updateFn (store w)) as [s'|] eqn:E; [|done].
  intros [= <-] Hf H. simpl. by eapply evolves_update.
Qed.

Lemma evolves_commit_updateStatus uploader k st msg w w' :
  commit (updateStatus uploader k st msg) w = Ok w' →
  evolves R s0 (store w) → evolves R s0 (store w').
Proof.
  unfold commit. destruct (updateStatus _ _ _ _ (store w)) as [s'|] eqn:E; [|done].
  intros [= <-] H. simpl. by eapply evolves_updateStatus.
Qed.

Lemma evolves_on_error prefix uploader k m w :
  evolves R s0 (store w) → evolves R s0 (store (on_error prefix uploader k m w)).
Proof.
  intros H. unfold on_error. destruct (commit _ w) as [w'|] eqn:E; [|done].
  by eapply evolves_commit_updateStatus.
Qed.

Lemma evolves_on_success prefix uploader k u w :
  evolves R s0 (store w) → evolves R s0 (store (on_success prefix uploader k u w)).
Proof.
  intros H. unfold on_success.
  destruct (commit _ w) as [w'|] eqn:E; [|by apply evolves_on_error].
  simpl. by eapply evolves_commit_updateStatus.
Qed.

Lemma evolves_upload uploader f config w :
  evolves R s0 (store w) → evolves R s0 (store (upload P uploader f config w)).
Proof.
  intros H. rewrite upload_store.
  destruct (updateStatus _ _ _ _ (store w)) as [s'|] eqn:E; [|done].
  by eapply evolves_updateStatus.
Qed.

Lemma evolves_foldl_upload uploader config l w :
  evolves R s0 (store w) →
  evolves R s0 (store (foldl (λ w' f, upload P uploader f config w') w l)).
Proof.
  revert w. induction l as [|f l IH]; intros w H; simpl; [done|].
  by apply IH, evolves_upload.
Qed.

Lemma evolves_settle i a w :
  evolves R s0 (store w) → evolves R s0 (store (settle i a w)).
Proof.
  intros H. unfold settle. destruct (pending w !! i) as [t|]; [|done].
  destruct t, a as [[]|?|[]|[]|[]]; simpl; try done.
  - destruct (put_then x); [by apply evolves_on_success|by apply evolves_on_error].
  - by apply evolves_on_success.
  - by apply evolves_on_error.
  - destruct (commit _ _) as [w'|] eqn:E; [|done].
    eapply evolves_commit_update; [exact E| |done]. intros ?? [= <-]. eauto.
Qed.

Lemma evolves_step w e :
  (∀ k, resets e k → R k) →
  evolves R s0 (store w) → evolves R s0 (store (step P w e)).
Proof.
  intros HR H.
  destruct e as [uploader fs config|uploader|uploader u|creds rgn|k cl cfg|i a]; simpl.
  - unfold uploadFiles. destruct fs as [fs|]; [|done].
    destruct (commit _ w) as [w1|] eqn:E; [|done]. simpl.
    apply evolves_foldl_upload.
    eapply evolves_commit_update; [exact E| |done]. intros ?? [= <-]. eauto.
  - destruct (commit _ w) as [w1|] eqn:E; [|done]. simpl.
    eapply evolves_commit_update; [exact E| |done]. intros ?? [= <-]. eauto.
  - destruct (commit _ w) as [w1|] eqn:E; [|done]. simpl.
    eapply evolves_commit_update; [exact E| |done]. intros ?? [= <-]. eauto.
  - unfold createClient. destruct (new_URL P _); [|done]. simpl.
    by apply evolves_client.
  - destruct (useUploader_effect_cases k cl cfg w) as [[_ ->]|[_ ->]]; [|done].
    simpl. apply evolves_reset; [done|]. by apply HR.
  - by apply evolves_settle.
Qed.

End Evolution.

Lemma evolves_run (P : Platform) (w : World) (es : list Event) :
  evolves (λ k, ∃ e, e ∈ es ∧ resets e k) (store w) (store (run P w es)).
Proof.
  induction es as [|e es IH] using rev_ind; [apply evolves_refl|].
  rewrite run_snoc. apply evolves_step.
  - intros k Hk. exists e. split; [|done]. apply elem_of_app. right. by left.
  - eapply evolves_mono; [|exact IH]. intros k (e' & Hin & Hk). exists e'.
    split; [|done]. apply elem_of_app. by left.
Qed.

(** X12: no event removes an uploader: one that is in the store stays in
    it along every run ([clear] only empties it), and as long as the
    effect of [useUploader] does not run for its key, the key and the
    configuration its closures are bound to stay the same. *)
Theorem uploader_stays_registered (P : Platform) (w : World) (es : list Event)
    (k : string) (up : Uploader) :
  uploaders (store w) !! k = Some up →
  ∃ up', uploaders (store (run P w es)) !! k = Some up'
    ∧ ((∀ e, e ∈ es → ¬ resets e k) →
       bound_key up' = bound_key up ∧ bound_config up' = bound_config up).
Proof.
  intros Hup.
  destruct (evolves_uploader_kept _ _ _ _ _ (evolves_run P w es) Hup)
    as (up' & Hup' & Hb).
  exists up'. split; [done|]. intros Hno. apply Hb.
  intros (e & Hin & Hk). by apply (Hno e).
Qed.

Lemma uploader_stays_registered_witness :
  ∃ up up', uploaders (store one_in_flight) !! "chat" = Some up
    ∧ uploaders (store (run demo one_in_flight
                          [Settle 0 (Token (Resolved "secret")); Clear "chat"]))
        !! "chat" = Some up'
    ∧ bound_key up' = bound_key up ∧ bound_config up' = bound_config up.
Proof.
  assert (∃ up, uploaders (store one_in_flight) !! "chat" = Some up) as (up & Hup)
    by (eexists; vm_compute; reflexivity).
  destruct (uploader_stays_registered demo one_in_flight
              [Settle 0 (Token (Resolved "secret")); Clear "chat"] "chat" up Hup)
    as (up' & Hup' & Hb).
  exists up, up'. split; [exact Hup|]. split; [exact Hup'|]. apply Hb.
  intros e He Hr.
  apply elem_of_cons in He as [->|He]; [exact Hr|].
  apply elem_of_cons in He as [->|He]; [exact Hr|].
  by apply elem_of_nil in He.
Defined.

(** X13: no event empties the client slot: once a client is in it, one
    is in it along every run, and it is the same client as long as
    [createClient] is not called. *)
Theorem client_stays (P : Platform) (w : World) (es : list Event) :
  (is_Some (client (store w)) → is_Some (client (store (run P w es))))
  ∧ ((∀ e creds rgn, e ∈ es → e ≠ CreateClient creds rgn) →
     client (store (run P w es)) = client (store w)).
Proof.
  split.
  - apply (evolves_client_kept _ _ _ (evolves_run P w es)).
  - induction es as [|e es IH] using rev_ind; [done|]. intros Hno.
    rewrite run_snoc, step_client.
    + apply IH. intros e' creds rgn Hin. apply Hno, elem_of_app. by left.
    + intros creds rgn. apply Hno, elem_of_app. right. by left.
Qed.

Lemma client_stays_witness :
  let es := [UploadFiles "chat" (Some [(photo, 1000%Z)]) s3_config; Clear "chat"] in
  is_Some (client (store (run demo (direct_ready s3_config) es)))
  ∧ client (store (run demo (direct_ready s3_config) es))
    = client (store (direct_ready s3_config)).
Proof.
  intros es.
  destruct (client_stays demo (direct_ready s3_config) es) as [Hsome Hsame].
  split.
  - apply Hsome. vm_compute. eexists. reflexivity.
  - apply Hsame. intros e creds rgn He.
    apply elem_of_cons in He as [->|He]; [discriminate|].
    apply elem_of_cons in He as [->|He]; [discriminate|].
    by apply elem_of_nil in He.
Defined.

(** ** [uploadFiles] *)

Lemma with_status_loading_twice (o : option Upload) :
  with_status loading <$> (with_status loading <$> o) = with_status loading <$> o.
Proof. by destruct o. Qed.

Lemma upload_lookup (P : Platform) uploader f config w uploader' k :
  lookup_file (store (upload P uploader f config w)) uploader' k
  = if decide (uploader = uploader' ∧ key_of f = k)
    then with_status loading <$> lookup_file (store w) uploader k
    else lookup_file (store w) uploader' k.
Proof.
  rewrite upload_store.
  destruct (lookup_file (store w) uploader (key_of f)) as [r|] eqn:Hr.
  - unfold lookup_file in Hr.
    destruct (uploaders (store w) !! uploader) as [draft|] eqn:Hd; [|done].
    simpl in Hr. rewrite (updateStatus_loading _ _ _ _ _ Hd Hr).
    rewrite lookup_file_insert by done.
    case_decide as Hk; [|done]. destruct Hk as [<- <-].
    unfold lookup_file. rewrite Hd. simpl. by rewrite Hr.
  - assert (¬ is_Ok (updateStatus uploader (key_of f) loading None (store w))) as Hn.
    { rewrite updateStatus_present, Hr. by intros [? ?]. }
    destruct (updateStatus _ _ _ _ _); [by destruct Hn|].
    case_decide as Hk; [|done]. destruct Hk as [<- <-]. by rewrite Hr.
Qed.

Lemma foldl_upload_lookup (P : Platform) uploader config l w uploader' k :
  lookup_file (store (foldl (λ w' f, upload P uploader f config w') w l)) uploader' k
  = if decide (uploader = uploader' ∧ k ∈ key_of <$> l)
    then with_status loading <$> lookup_file (store w) uploader k
    else lookup_file (store w) uploader' k.
Proof.
  revert w. induction l as [|f l IH]; intros w; simpl.
  - rewrite decide_False; [done|]. intros [_ H]. by apply elem_of_nil in H.
  - rewrite IH, !upload_lookup.
    destruct (decide (uploader = uploader')) as [<-|Hne].
    + destruct (decide (key_of f = k)) as [<-|Hk].
      * rewrite (decide_True (P := _ ∧ key_of f = key_of f)) by done.
        rewrite (decide_True (P := _ ∧ key_of f ∈ _ :: _)) by (split; [done|by left]).
        case_decide; [apply with_status_loading_twice|done].
      * rewrite (decide_False (P := _ ∧ key_of f = k)) by (by intros [_ ?]).
        case_decide as E1; case_decide as E2; try done.
        -- destruct E2. split; [done|]. right. by destruct E1.
        -- destruct E1. split; [done|]. destruct E2 as [_ E2].
           apply elem_of_cons in E2 as [?|?]; [done|done].
    + rewrite !decide_False by (by intros [? _]). done.
Qed.

Lemma upload_pending_length (P : Platform) uploader f config w :
  length (pending (upload P uploader f config w)) ≤ S (length (pending w)).
Proof.
  unfold upload, commit, upload_credentials.
  destruct (updateStatus _ _ _ _ _); simpl; [|lia].
  repeat case_match; simpl; rewrite ?length_app; simpl; lia.
Qed.

Lemma foldl_upload_pending_length (P : Platform) uploader config l w :
  length (pending (foldl (λ w' f, upload P uploader f config w') w l))
  ≤ length (pending w) + length l.
Proof.
  revert w. induction l as [|f l IH]; intros w; simpl; [lia|].
  specialize (IH (upload P uploader f config w)).
  pose proof (upload_pending_length P uploader f config w). lia.
Qed.

(** X14: [uploadFiles] on an existing uploader does not raise; when it
    returns, every file of the batch has a record under its key, in
    status [loading], with an empty url, size [(0, 0)], no error message
    and a file of the batch that has this key; the records under the
    other keys are as they were (the batch is merged into the mapping)
    and so are the other uploaders; at most one dispatch per file is
    left suspended. *)
Theorem uploadFiles_seeds_and_starts (P : Platform) (w : World) (uploader : string)
    (up : Uploader) (fs : list (File * Z)) (config : StorageConfiguration) :
  uploaders (store w) !! uploader = Some up →
  ∃ w', uploadFiles P uploader (Some fs) config w = Ok w'
    ∧ (∀ ft, ft ∈ fs →
         ∃ r ft', lookup_file (store w') uploader (make_key P ft.1 ft.2) = Some r
           ∧ status r = Some loading ∧ url r = "" ∧ size r = (0, 0)%Z
           ∧ errorMessage r = None ∧ key r = Some (make_key P ft.1 ft.2)
           ∧ ft' ∈ fs ∧ file r = Some ft'.1
           ∧ make_key P ft'.1 ft'.2 = make_key P ft.1 ft.2)
    ∧ (∀ k, k ∉ batch_keys P fs →
         lookup_file (store w') uploader k = lookup_file (store w) uploader k)
    ∧ (∀ other k, other ≠ uploader →
         lookup_file (store w') other k = lookup_file (store w) other k)
    ∧ length (pending w') ≤ length (pending w) + length fs.
Proof.
  intros Hup. unfold uploadFiles, commit, update. rewrite Hup. simpl.
  eexists. split; [reflexivity|].
  set (s1 := with_uploader uploader
               (with_files (keyBy (new_upload P <$> fs) ∪ files up) up) (store w)).
  assert (∀ k, lookup_file s1 uploader k
               = (keyBy (new_upload P <$> fs) ∪ files up) !! k) as Hs1.
  { intros k. unfold s1. rewrite lookup_file_with_uploader. by rewrite decide_True. }
  split; [|split; [|split]].
  - intros ft Hft. rewrite foldl_upload_lookup. simpl.
    assert (make_key P ft.1 ft.2 ∈ key_of <$> (new_upload P <$> fs)) as Hin.
    { apply list_elem_of_fmap. exists (new_upload P ft). split; [done|].
      by apply list_elem_of_fmap_2. }
    rewrite decide_True by done. fold s1. rewrite Hs1.
    pose proof (keyBy_new_upload P fs (make_key P ft.1 ft.2)) as Hk.
    destruct (keyBy (new_upload P <$> fs) !! make_key P ft.1 ft.2) as [r|] eqn:E;
      [|done].
    erewrite lookup_union_Some_l by exact E. simpl.
    apply keyBy_lookup_acc in E as [[Hr Hkey]|E]; [|by rewrite lookup_empty in E].
    apply list_elem_of_fmap in Hr as (ft' & -> & Hft').
    eexists _, ft'. split; [reflexivity|]. simpl.
    repeat split; try done. by rewrite <-Hkey.
  - intros k Hk. rewrite foldl_upload_lookup. simpl.
    rewrite decide_False by (by intros [_ ?]). fold s1. rewrite Hs1.
    pose proof (keyBy_new_upload P fs k) as Hn.
    destruct (keyBy (new_upload P <$> fs) !! k) as [r|] eqn:E; [by destruct Hn|].
    rewrite lookup_union_r by done. unfold lookup_file. by rewrite Hup.
  - intros other k Hne. rewrite foldl_upload_lookup. simpl.
    rewrite decide_False by (by intros [? _]). fold s1. unfold s1.
    rewrite lookup_file_with_uploader. by rewrite decide_False.
  - etrans; [apply foldl_upload_pending_length|]. simpl. by rewrite length_fmap.
Qed.

Lemma uploadFiles_seeds_and_starts_witness :
  let w := step demo init (UploaderEffect "chat" None proxy_config) in
  ∃ w', uploadFiles demo "chat" (Some [(photo, 1000%Z); (clip, 1000%Z)]) proxy_config w
        = Ok w'
    ∧ length (pending w') ≤ 2.
Proof.
  intros w.
  assert (∃ up, uploaders (store w) !! "chat" = Some up) as (up & Hup)
    by (eexists; vm_compute; reflexivity).
  destruct (uploadFiles_seeds_and_starts demo w "chat" up
              [(photo, 1000%Z); (clip, 1000%Z)] proxy_config Hup)
    as (w' & Hw' & _ & _ & _ & Hlen).
  exists w'. split; [exact Hw'|exact Hlen].
Defined.

(** ** Two files of a batch with one key *)

Lemma keyBy_notin_acc (l : list Upload) (m : gmap string Upload) (k : string) :
  k ∉ key_of <$> l →
  foldl (λ m f, <[key_of f := f]> m) m l !! k = m !! k.
Proof.
  revert m. induction l as [|f l IH]; intros m Hk; simpl; [done|].
  rewrite fmap_cons in Hk. apply not_elem_of_cons in Hk as [Hne Hk].
  rewrite IH by done. by rewrite lookup_insert_ne.
Qed.

Lemma keyBy_last (l1 l2 : list Upload) (x : Upload) :
  key_of x ∉ key_of <$> l2 →
  keyBy (l1 ++ x :: l2) !! key_of x = Some x.
Proof.
  intros Hk. unfold keyBy. rewrite foldl_app. simpl.
  rewrite keyBy_notin_acc by done. apply lookup_insert_eq.
Qed.

(** X15: when several files of a batch get the same key, the record
    [uploadFiles] leaves under that key is the one of the last of them:
    it holds the file handed in last. *)
Theorem last_file_with_a_key_wins (P : Platform) (w : World) (uploader : string)
    (up : Uploader) (fs1 fs2 : list (File * Z)) (ft : File * Z)
    (config : StorageConfiguration) :
  uploaders (store w) !! uploader = Some up →
  make_key P ft.1 ft.2 ∉ batch_keys P fs2 →
  ∃ w', uploadFiles P uploader (Some (fs1 ++ ft :: fs2)%list) config w = Ok w'
    ∧ lookup_file (store w') uploader (make_key P ft.1 ft.2)
      = Some (with_status loading (new_upload P ft)).
Proof.
  intros Hup Hk. unfold uploadFiles, commit, update. rewrite Hup. simpl.
  eexists. split; [reflexivity|].
  rewrite foldl_upload_lookup. simpl.
  rewrite decide_True.
  - rewrite lookup_file_with_uploader, decide_True by done. simpl.
    rewrite fmap_app, fmap_cons.
    erewrite lookup_union_Some_l; [done|].
    by apply (keyBy_last _ _ (new_upload P ft)).
  - split; [done|]. rewrite fmap_app, fmap_cons, fmap_app, fmap_cons.
    apply elem_of_app. right. by left.
Qed.

Lemma last_file_with_a_key_wins_witness :
  let w := step demo init (UploaderEffect "chat" None proxy_config) in
  let other := {| name := "photo.png"; type := "image/jpeg"; file_size := 7%Z |} in
  ∃ w', uploadFiles demo "chat" (Some [(photo, 1000%Z); (other, 1000%Z)]) proxy_config w
        = Ok w'
    ∧ (file <$> lookup_file (store w') "chat" photo_key) = Some (Some other).
Proof.
  intros w other.
  assert (∃ up, uploaders (store w) !! "chat" = Some up) as (up & Hup)
    by (eexists; vm_compute; reflexivity).
  assert (make_key demo (other, 1000%Z).1 (other, 1000%Z).2 ∉ batch_keys demo [])
    as Hk by apply not_elem_of_nil.
  destruct (last_file_with_a_key_wins demo w "chat" up [(photo, 1000%Z)] []
              (other, 1000%Z) proxy_config Hup Hk) as (w' & Hw' & Hl).
  exists w'. split; [exact Hw'|].
  exact (f_equal (fmap file) Hl).
Defined.

(** ** Mounting [useUploader] *)

Lemma useClient_effects_idle (P : Platform) (r : ClientRender) (h : ClientHook)
    (w : World) :
  r_hasCredentials r = false ∨ is_Some (r_client r) ∨ r_credentials r = None →
  (useClient_effects P r h w).2 = w.
Proof.
  unfold useClient_effects. simpl. intros [->|[[c ->]| Hc]].
  - by rewrite andb_false_r.
  - cbn. by rewrite andb_false_r.
  - case_match; [|done]. unfold initClient. by rewrite Hc.
Qed.

Lemma uploader_pass_idle (P : Platform) (k : string)
    (creds : option StorageCredentials) (configuration : StorageConfiguration)
    (h : UploaderHook) (w : World) :
  hasCreds creds configuration = false →
  ¬ prerequisites (client (store w)) configuration →
  hasCredentials (client_hook h) = false →
  (uploader_pass P k creds configuration (h, w)).2 = w
  ∧ hasCredentials (client_hook (uploader_pass P k creds configuration (h, w)).1)
    = false.
Proof.
  intros Hc Hpre Hh.
  unfold uploader_pass, useUploader, useUploader_effects, useClient_effects. simpl.
  rewrite Hh, Hc, !andb_false_r. simpl. split; [|done].
  case_bool_decide; [|done].
  by destruct (useUploader_effect_cases k (client (store w)) configuration w)
    as [[? _]|[_ ->]].
Qed.

(** X16: as long as the credentials are incomplete for the
    [credentials] service (or the service is another one), the
    configuration does not meet the prerequisites and [hasCredentials]
    is not set, no number of renders of [useUploader] changes the world:
    no client is built and no uploader is created. *)
Theorem useUploader_waits_for_prerequisites (P : Platform) (k : string)
    (creds : option StorageCredentials) (configuration : StorageConfiguration)
    (n : nat) (h : UploaderHook) (w : World) :
  hasCreds creds configuration = false →
  ¬ prerequisites (client (store w)) configuration →
  hasCredentials (client_hook h) = false →
  (passes P k creds configuration n (h, w)).2 = w
  ∧ hasCredentials (client_hook (passes P k creds configuration n (h, w)).1) = false.
Proof.
  intros Hc Hpre. revert h. induction n as [|n IH]; intros h Hh; [by split|].
  unfold passes in *. rewrite Nat.iter_succ_r.
  destruct (uploader_pass_idle P k creds configuration h w Hc Hpre Hh) as [Hw Hh'].
  rewrite (surjective_pairing (uploader_pass P k creds configuration (h, w))), Hw.
  by apply IH.
Qed.

Lemma useUploader_waits_for_prerequisites_witness :
  (passes demo "chat" None unset_proxy_config 5 (mount_uploader, init)).2 = init.
Proof.
  apply (useUploader_waits_for_prerequisites demo "chat" None unset_proxy_config 5
           mount_uploader init).
  - reflexivity.
  - intros [[[? ?] _]|[_ ?]]; done.
  - reflexivity.
Defined.

Section Mounting.

Variable P : Platform.
Variable k : string.
Variable c : StorageCredentials.
Variable configuration : StorageConfiguration.

Hypothesis Hservice : service configuration = credentials.
Hypothesis Hcomplete : hasCreds (Some c) configuration = true.

Lemma pass_sets_hasCredentials (w : World) :
  client (store w) = None →
  uploader_pass P k (Some c) configuration (mount_uploader, w)
  = ({| client_hook :=
          {| hasCredentials := true;
             committed := Some {| r_credentials := Some c;
                                  r_configuration := configuration;
                                  r_client := None; r_hasCredentials := false |} |};
        u_committed := Some (k, None, config_id configuration) |}, w).
Proof.
  intros Hcl.
  unfold uploader_pass, useUploader, useUploader_effects, useClient_effects, useClient.
  simpl. rewrite Hcl, Hcomplete. simpl.
  unfold useUploader_effect. rewrite Hservice. cbn. done.
Qed.

Lemma pass_builds_client (w : World) (e : Url) :
  client (store w) = None →
  new_URL P (prefixEndpoint (endpoint c)) = Some e →
  ∃ h cl,
    uploader_pass P k (Some c) configuration
      ({| client_hook :=
            {| hasCredentials := true;
               committed := Some {| r_credentials := Some c;
                                    r_configuration := configuration;
                                    r_client := None; r_hasCredentials := false |} |};
          u_committed := Some (k, None, config_id configuration) |}, w)
    = (h, publish (with_client cl (store w)) w)
    ∧ client_credentials cl = c
    ∧ hasCredentials (client_hook h) = true
    ∧ u_committed h = Some (k, None, config_id configuration).
Proof.
  intros Hcl Hurl.
  unfold uploader_pass, useUploader, useUploader_effects, useClient_effects, useClient.
  simpl. rewrite Hcl.
  unfold initClient, createClient, useUploader_effect, u_deps, deps2, deps1.
  cbn. rewrite Hurl, Hservice. cbn.
  repeat (case_bool_decide as Hx; cbn in Hx; try (exfalso; congruence); clear Hx).
  all: cbn; eexists _, _; (split; [reflexivity|]); cbn; rewrite ?Hcomplete; done.
Qed.

Lemma pass_stores_uploader (w : World) (h : UploaderHook) (cl : S3Client) :
  client (store w) = Some cl →
  u_committed h = Some (k, None, config_id configuration) →
  ∃ h', uploader_pass P k (Some c) configuration (h, w)
        = (h', publish (with_uploader k (emptyUploader k configuration) (store w)) w)
    ∧ u_committed h' = Some (k, Some (client_id cl), config_id configuration)
    ∧ committed (client_hook h')
      = Some (useClient (Some c) configuration (client_hook h) w).
Proof.
  intros Hcl Hdeps.
  unfold uploader_pass, useUploader, useUploader_effects. cbn [fst snd u_client u_key].
  pose proof (useClient_effects_idle P
                (useClient (Some c) configuration (client_hook h) w) (client_hook h) w)
    as Hidle.
  destruct (useClient_effects P _ (client_hook h) w) as [ch w1] eqn:E.
  simpl in Hidle. rewrite Hcl in Hidle. rewrite Hidle by (right; left; eauto).
  assert (committed ch = Some (useClient (Some c) configuration (client_hook h) w))
    as Hch.
  { unfold useClient_effects in E. by injection E as <- _. }
  unfold u_deps, useClient. cbn. rewrite Hdeps, Hcl.
  case_bool_decide as Hx; [|discriminate Hx].
  unfold useUploader_effect. rewrite Hservice. cbn.
  eexists. split; [reflexivity|]. split; [done|].
  simpl. rewrite Hch. unfold useClient. by rewrite Hcl.
Qed.

End Mounting.

Lemma passes_0 P k creds configuration hw : passes P k creds configuration 0 hw = hw.
Proof. done. Qed.

Lemma passes_S P k creds configuration n hw :
  passes P k creds configuration (S n) hw
  = uploader_pass P k creds configuration (passes P k creds configuration n hw).
Proof. done. Qed.

(** X17: a component that calls [useUploader(k)] gets its uploader
    created by the effects of its renders. With the proxy service and a
    non-empty [presignedUrl] the first render is enough. With the
    [credentials] service, complete credentials, an endpoint that parses
    and an empty client slot it takes three: the first sets
    [hasCredentials], the second builds the client from these
    credentials and leaves the uploaders alone, the third stores the
    empty uploader and keeps that client. *)
Theorem useUploader_mounts (P : Platform) (k : string)
    (configuration : StorageConfiguration) (w : World) :
  (∀ creds, service configuration = presigned_url →
     presignedUrl configuration ≠ "" →
     uploaders (store (passes P k creds configuration 1 (mount_uploader, w)).2) !! k
     = Some (emptyUploader k configuration))
  ∧ (∀ c, service configuration = credentials →
       hasCreds (Some c) configuration = true →
       is_Some (new_URL P (prefixEndpoint (endpoint c))) →
       client (store w) = None →
       (passes P k (Some c) configuration 1 (mount_uploader, w)).2 = w
       ∧ uploaders (store (passes P k (Some c) configuration 2 (mount_uploader, w)).2)
         = uploaders (store w)
       ∧ (∃ cl, client (store (passes P k (Some c) configuration 2 (mount_uploader, w)).2)
                = Some cl
           ∧ client_credentials cl = c
           ∧ client (store (passes P k (Some c) configuration 3 (mount_uploader, w)).2)
             = Some cl)
       ∧ uploaders (store (passes P k (Some c) configuration 3 (mount_uploader, w)).2)
           !! k = Some (emptyUploader k configuration)).
Proof.
  split.
  - intros creds Hs Hu. unfold passes, uploader_pass, useUploader, useUploader_effects.
    simpl.
    destruct (useUploader_effect_cases k (client (store w)) configuration w)
      as [[_ ->]|[Hn _]]; [|destruct Hn; by right].
    simpl. apply lookup_insert_eq.
  - intros c Hs Hc [e Hurl] Hcl.
    rewrite !passes_S, !passes_0.
    rewrite (pass_sets_hasCredentials P k c configuration Hs Hc w Hcl).
    destruct (pass_builds_client P k c configuration Hs w e Hcl Hurl)
      as (h2 & cl & -> & Hcreds & _ & Hdeps).
    destruct (pass_stores_uploader P k c configuration Hs
                (publish (with_client cl (store w)) w) h2 cl eq_refl Hdeps)
      as (h3 & -> & _).
    simpl. split; [done|]. split; [done|]. split; [by exists cl|].
    apply lookup_insert_eq.
Qed.

Lemma useUploader_mounts_witness :
  uploaders (store (passes demo "chat" None proxy_config 1 (mount_uploader, init)).2)
    !! "chat" = Some (emptyUploader "chat" proxy_config)
  ∧ uploaders (store (passes demo "files" (Some creds_a) s3_config 3
                        (mount_uploader, init)).2)
      !! "files" = Some (emptyUploader "files" s3_config).
Proof.
  destruct (useUploader_mounts demo "chat" proxy_config init) as [H1 _].
  destruct (useUploader_mounts demo "files" s3_config init) as [_ H2].
  split.
  - by apply H1.
  - apply (H2 creds_a); [reflexivity|reflexivity|by eexists|reflexivity].
Defined.

(** ** The direct strategy from submission to url *)

Lemma success_then_measure (prefix : string → string) (w : World)
    (uploader k u : string) (r : Upload) (sz : Z * Z) :
  lookup_file (store w) uploader k = Some r →
  let w' := settle (length (pending w)) (ImageSize (Resolved sz))
              (on_success prefix uploader k u w) in
  lookup_file (store w') uploader k = Some (patch (Some (with_status success r)) sz u)
  ∧ pending w' = pending w ∧ unhandled w' = unhandled w.
Proof.
  intros Hr w'. subst w'.
  destruct (on_success_present prefix uploader k u w r Hr) as (s1 & -> & Hs1).
  set (w1 := spawn (AwaitImage uploader k u) (publish s1 w)).
  assert (pending w1 !! length (pending w) = Some (AwaitImage uploader k u)) as Hj.
  { unfold w1. simpl. by apply list_lookup_middle. }
  rewrite (settle_pending _ _ _ (ImageSize (Resolved sz)) Hj). simpl.
  assert (lookup_file s1 uploader k = Some (with_status success r)) as Hr1.
  { rewrite Hs1. by rewrite decide_True. }
  unfold lookup_file in Hr1.
  destruct (uploaders s1 !! uploader) as [draft|] eqn:Hd; [|done]. simpl in Hr1.
  destruct (updateFile_present uploader k sz u s1 draft Hd) as (s2 & Hs2 & Hl2).
  unfold commit. simpl. rewrite Hs2. simpl.
  rewrite Hl2, decide_True, Hr1 by done. split; [done|]. split; [|done].
  by rewrite (delete_middle (pending w) []), app_nil_r.
Qed.

Lemma send_and_measure (w : World) (l : list Task) (uploader k u : string)
    (r : Upload) (sz : Z * Z) :
  pending w = (l ++ [AwaitSend uploader k u])%list →
  lookup_file (store w) uploader k = Some r →
  let w' := settle (length l) (ImageSize (Resolved sz))
              (settle (length l) (Sent (Resolved ())) w) in
  lookup_file (store w') uploader k = Some (patch (Some (with_status success r)) sz u)
  ∧ pending w' = l ∧ unhandled w' = unhandled w.
Proof.
  intros Hp Hr w'. subst w'.
  assert (pending w !! length l = Some (AwaitSend uploader k u)) as Hi.
  { rewrite Hp. by apply list_lookup_middle. }
  rewrite (settle_pending _ _ _ (Sent (Resolved ())) Hi).
  cbn [resume default from_option id].
  assert (pending (settle_at (length l) w) = l) as Hl.
  { simpl. by rewrite Hp, (delete_middle l []), app_nil_r. }
  pose proof (success_then_measure s3_error (settle_at (length l) w) uploader k u r sz Hr)
    as H. cbv zeta in H. rewrite Hl in H. exact H.
Qed.

Lemma put_and_measure (w : World) (l : list Task) (uploader k u fileUrl : string)
    (x : PutExchange) (r : Upload) (sz : Z * Z) :
  pending w = (l ++ [AwaitPut uploader k u])%list →
  put_then x = Resolved fileUrl →
  lookup_file (store w) uploader k = Some r →
  let w' := settle (length l) (ImageSize (Resolved sz))
              (settle (length l) (Put x) w) in
  lookup_file (store w') uploader k
  = Some (patch (Some (with_status success r)) sz fileUrl)
  ∧ pending w' = l ∧ unhandled w' = unhandled w.
Proof.
  intros Hp Hx Hr w'. subst w'.
  assert (pending w !! length l = Some (AwaitPut uploader k u)) as Hi.
  { rewrite Hp. by apply list_lookup_middle. }
  rewrite (settle_pending _ _ _ (Put x) Hi).
  cbn [resume default from_option id]. rewrite Hx.
  assert (pending (settle_at (length l) w) = l) as Hl.
  { simpl. by rewrite Hp, (delete_middle l []), app_nil_r. }
  pose proof (success_then_measure tlon_error (settle_at (length l) w) uploader k
                fileUrl r sz Hr) as H.
  cbv zeta in H. rewrite Hl in H. exact H.
Qed.

Lemma submit_one (P : Platform) (w : World) (uploader : string) (up : Uploader)
    (f : File) (t : Z) (config : StorageConfiguration) :
  uploaders (store w) !! uploader = Some up →
  ∃ w1, commit (updateStatus uploader (make_key P f t) loading None)
          (publish (with_uploader uploader
                      (with_files (keyBy [new_upload P (f, t)] ∪ files up) up)
                      (store w)) w) = Ok w1
    ∧ lookup_file (store w1) uploader (make_key P f t)
      = Some (with_status loading (new_upload P (f, t)))
    ∧ pending w1 = pending w ∧ unhandled w1 = unhandled w
    ∧ client (store w1) = client (store w).
Proof.
  intros Hup. unfold commit. simpl.
  rewrite (updateStatus_loading uploader _ _
             (with_files (keyBy [new_upload P (f, t)] ∪ files up) up)
             (new_upload P (f, t))).
  - eexists. split; [reflexivity|]. split; [|done].
    unfold publish at 1. cbn [store].
    rewrite lookup_file_with_uploader, decide_True by done.
    cbn [files with_files]. apply lookup_insert_eq.
  - simpl. apply lookup_insert_eq.
  - simpl. unfold keyBy. simpl. apply lookup_union_Some_l, lookup_insert_eq.
Qed.

Lemma step_upload_one (P : Platform) (w : World) (uploader : string)
    (up : Uploader) (f : File) (t : Z) (config : StorageConfiguration) :
  uploaders (store w) !! uploader = Some up →
  step P w (UploadFiles uploader (Some [(f, t)]) config)
  = upload P uploader (new_upload P (f, t)) config
      (publish (with_uploader uploader
                  (with_files (keyBy [new_upload P (f, t)] ∪ files up) up)
                  (store w)) w).
Proof.
  intros Hup. simpl. unfold uploadFiles, update, commit. by rewrite Hup.
Qed.

(** X18: the direct strategy with a [publicUrlBase]. A file handed to an
    existing uploader while a client is in the slot is sent at once;
    when the [send] and then the measurement of the image resolve, its
    record is in [success] with the url [new URL(key, publicUrlBase)] and
    the measured size, and nothing is left suspended or unhandled. When
    [publicUrlBase] does not parse, nothing is sent: the record stays in
    [loading] and the [TypeError] is left unhandled. *)
Theorem credentials_upload_with_public_base (P : Platform) (w : World)
    (uploader : string) (up : Uploader) (f : File) (t : Z)
    (config : StorageConfiguration) (sz : Z * Z) :
  uploaders (store w) !! uploader = Some up →
  is_Some (client (store w)) →
  service config = credentials →
  publicUrlBase config ≠ "" →
  let k := make_key P f t in
  let n := length (pending w) in
  let w1 := step P w (UploadFiles uploader (Some [(f, t)]) config) in
  match new_URL_base P k (publicUrlBase config) with
  | Some u =>
      let w3 := settle n (ImageSize (Resolved sz)) (settle n (Sent (Resolved ())) w1) in
      pending w1 = (pending w ++ [AwaitSend uploader k u])%list
      ∧ lookup_file (store w3) uploader k
        = Some {| file := Some f; key := Some k; status := Some success; url := u;
                  size := sz; errorMessage := None |}
      ∧ pending w3 = pending w ∧ unhandled w3 = unhandled w
  | None =>
      status_of (store w1) uploader k = Some loading
      ∧ pending w1 = pending w
      ∧ unhandled w1 = "TypeError: Invalid URL" :: unhandled w
  end.
Proof.
  intros Hup Hcl Hs Hbase k n w1.
  destruct (submit_one P w uploader up f t config Hup)
    as (w0 & Hw0 & Hl0 & Hp0 & Hu0 & Hc0).
  assert (w1 = upload_credentials P uploader k config w0) as Hw1.
  { unfold w1. rewrite (step_upload_one P w uploader up f t config Hup).
    unfold upload.
    change (key_of (new_upload P (f, t))) with (make_key P f t). rewrite Hw0.
    rewrite Hs. cbn [store publish client with_uploader].
    destruct Hcl as [cl Hcl]. rewrite Hcl.
    rewrite (bool_decide_true (is_Some (Some cl))) by done. done. }
  unfold upload_credentials in Hw1. unfold truthy in Hw1.
  rewrite bool_decide_true in Hw1 by done.
  destruct (new_URL_base P k (publicUrlBase config)) as [u|].
  - cbv zeta.
    assert (pending w1 = (pending w ++ [AwaitSend uploader k u])%list) as Hp1
      by (by rewrite Hw1; simpl; rewrite Hp0).
    split; [done|].
    destruct (send_and_measure w1 (pending w) uploader k u
                (with_status loading (new_upload P (f, t))) sz Hp1)
      as (Hl & Hp & Hu); [by rewrite Hw1|].
    split; [exact Hl|]. split; [exact Hp|]. fold n in Hu. by rewrite Hu, Hw1.
  - rewrite Hw1. unfold status_of, k. cbn [reject store pending unhandled].
    rewrite Hl0, Hp0, Hu0. done.
Qed.

Lemma credentials_upload_with_public_base_witness :
  let w1 := step demo (direct_ready s3_config)
              (UploadFiles "chat" (Some [(photo, 1000%Z)]) s3_config) in
  let w3 := settle 0 (ImageSize (Resolved (640, 480)%Z))
              (settle 0 (Sent (Resolved ())) w1) in
  lookup_file (store w3) "chat" photo_key
  = Some {| file := Some photo; key := Some photo_key; status := Some success;
            url := "https://cdn.example/~zod/1000-photo.png"; size := (640, 480)%Z;
            errorMessage := None |}
  ∧ pending w3 = [].
Proof.
  intros w1 w3.
  assert (∃ up, uploaders (store (direct_ready s3_config)) !! "chat" = Some up)
    as (up & Hup) by (eexists; vm_compute; reflexivity).
  assert (is_Some (client (store (direct_ready s3_config)))) as Hcl
    by (vm_compute; eexists; reflexivity).
  assert (publicUrlBase s3_config ≠ "") as Hbase by discriminate.
  destruct (credentials_upload_with_public_base demo (direct_ready s3_config) "chat"
              up photo 1000%Z s3_config (640, 480)%Z Hup Hcl eq_refl Hbase)
    as (_ & Hl & Hp & _).
  split; [exact Hl|exact Hp].
Defined.

(** X19: the direct strategy without [publicUrlBase]. The file is sent
    only after the signed url arrives; the url the record ends with is
    that signed url up to its first ["?"]. When the signed url is
    refused, nothing is sent: the record stays in [loading] and the
    rejection is left unhandled. *)
Theorem credentials_upload_with_signed_url (P : Platform) (w : World)
    (uploader : string) (up : Uploader) (f : File) (t : Z)
    (config : StorageConfiguration) (sz : Z * Z) (res m : string) :
  uploaders (store w) !! uploader = Some up →
  is_Some (client (store w)) →
  service config = credentials →
  publicUrlBase config = "" →
  let k := make_key P f t in
  let n := length (pending w) in
  let w1 := step P w (UploadFiles uploader (Some [(f, t)]) config) in
  let w2 := settle n (Signed (Resolved res)) w1 in
  let w4 := settle n (ImageSize (Resolved sz)) (settle n (Sent (Resolved ())) w2) in
  let w2' := settle n (Signed (Rejected m)) w1 in
  pending w1 = (pending w ++ [AwaitSigned uploader k])%list
  ∧ pending w2 = (pending w ++ [AwaitSend uploader k (split_query_0 res)])%list
  ∧ lookup_file (store w4) uploader k
    = Some {| file := Some f; key := Some k; status := Some success;
              url := split_query_0 res; size := sz; errorMessage := None |}
  ∧ pending w4 = pending w ∧ unhandled w4 = unhandled w
  ∧ status_of (store w2') uploader k = Some loading
  ∧ pending w2' = pending w ∧ unhandled w2' = m :: unhandled w.
Proof.
  intros Hup Hcl Hs Hbase k n w1 w2 w4 w2'.
  destruct (submit_one P w uploader up f t config Hup)
    as (w0 & Hw0 & Hl0 & Hp0 & Hu0 & Hc0).
  assert (w1 = spawn (AwaitSigned uploader k) w0) as Hw1.
  { unfold w1. rewrite (step_upload_one P w uploader up f t config Hup).
    unfold upload.
    change (key_of (new_upload P (f, t))) with (make_key P f t). rewrite Hw0.
    rewrite Hs. cbn [store publish client with_uploader].
    destruct Hcl as [cl Hcl]. rewrite Hcl.
    rewrite (bool_decide_true (is_Some (Some cl))) by done.
    unfold upload_credentials. by rewrite Hbase. }
  assert (pending w1 = (pending w ++ [AwaitSigned uploader k])%list) as Hp1
    by (by rewrite Hw1; simpl; rewrite Hp0).
  assert (pending w1 !! n = Some (AwaitSigned uploader k)) as Hi.
  { rewrite Hp1. by apply list_lookup_middle. }
  assert (delete n (pending w1) = pending w) as Hdel.
  { rewrite Hp1. unfold n. by rewrite (delete_middle (pending w) []), app_nil_r. }
  split; [done|].
  assert (w2 = spawn (AwaitSend uploader k (split_query_0 res)) (settle_at n w1)) as Hw2.
  { unfold w2. by rewrite (settle_pending _ _ _ _ Hi). }
  assert (pending w2 = (pending w ++ [AwaitSend uploader k (split_query_0 res)])%list)
    as Hp2 by (by rewrite Hw2; simpl; rewrite Hdel).
  split; [done|].
  destruct (send_and_measure w2 (pending w) uploader k (split_query_0 res)
              (with_status loading (new_upload P (f, t))) sz Hp2)
    as (Hl & Hp & Hu); [by rewrite Hw2, Hw1|].
  split; [exact Hl|]. split; [exact Hp|].
  split; [unfold w4; fold n in Hu; by rewrite Hu, Hw2, Hw1|].
  unfold w2'. rewrite (settle_pending _ _ _ _ Hi).
  cbn [resume reject settle_at store pending unhandled default from_option id].
  rewrite Hdel.
  unfold status_of, k. rewrite Hw1. cbn [spawn store unhandled].
  rewrite Hl0, Hu0. done.
Qed.

Lemma credentials_upload_with_signed_url_witness :
  let w1 := step demo (direct_ready signed_config)
              (UploadFiles "chat" (Some [(photo, 1000%Z)]) signed_config) in
  let w2 := settle 0 (Signed (Resolved "https://s3.example/att/photo.png?X-Amz=1")) w1 in
  let w4 := settle 0 (ImageSize (Resolved (640, 480)%Z))
              (settle 0 (Sent (Resolved ())) w2) in
  (url <$> lookup_file (store w4) "chat" photo_key)
  = Some "https://s3.example/att/photo.png"
  ∧ status_of (store (settle 0 (Signed (Rejected "expired")) w1)) "chat" photo_key
    = Some loading.
Proof.
  intros w1 w2 w4.
  assert (∃ up, uploaders (store (direct_ready signed_config)) !! "chat" = Some up)
    as (up & Hup) by (eexists; vm_compute; reflexivity).
  assert (is_Some (client (store (direct_ready signed_config)))) as Hcl
    by (vm_compute; eexists; reflexivity).
  destruct (credentials_upload_with_signed_url demo (direct_ready signed_config) "chat"
              up photo 1000%Z signed_config (640, 480)%Z
              "https://s3.example/att/photo.png?X-Amz=1" "expired"
              Hup Hcl eq_refl eq_refl)
    as (_ & _ & Hl & _ & _ & Hst & _).
  split; [|exact Hst].
  unfold w4, w2, w1. exact (f_equal (fmap url) Hl).
Defined.

(** X20: the proxy strategy from submission to url. A file handed to an
    existing uploader with a [presignedUrl] waits for the token, then
    for the PUT to [presignedUrl/key?token=token]; when the [.then]
    callback of the PUT resolves with a file url and the image is
    measured, the record is in [success] with that url and the measured
    size, and nothing is left suspended or unhandled. When the token
    request is refused, no PUT is made: the record stays in [loading]
    and the rejection is left unhandled. *)
Theorem proxy_upload_from_submission_to_url (P : Platform) (w : World)
    (uploader : string) (up : Uploader) (f : File) (t : Z)
    (config : StorageConfiguration) (x : PutExchange) (sz : Z * Z)
    (tok fileUrl m : string) :
  uploaders (store w) !! uploader = Some up →
  service config = presigned_url →
  presignedUrl config ≠ "" →
  put_then x = Resolved fileUrl →
  let k := make_key P f t in
  let n := length (pending w) in
  let target := presignedUrl config +:+ "/" +:+ k in
  let w1 := step P w (UploadFiles uploader (Some [(f, t)]) config) in
  let w2 := settle n (Token (Resolved tok)) w1 in
  let w4 := settle n (ImageSize (Resolved sz)) (settle n (Put x) w2) in
  let w2' := settle n (Token (Rejected m)) w1 in
  pending w1 = (pending w ++ [AwaitToken uploader k target])%list
  ∧ pending w2
    = (pending w ++ [AwaitPut uploader k (target +:+ "?token=" +:+ tok)])%list
  ∧ lookup_file (store w4) uploader k
    = Some {| file := Some f; key := Some k; status := Some success;
              url := fileUrl; size := sz; errorMessage := None |}
  ∧ pending w4 = pending w ∧ unhandled w4 = unhandled w
  ∧ status_of (store w2') uploader k = Some loading
  ∧ pending w2' = pending w ∧ unhandled w2' = m :: unhandled w.
Proof.
  intros Hup Hs Hurl Hx k n target w1 w2 w4 w2'.
  destruct (submit_one P w uploader up f t config Hup)
    as (w0 & Hw0 & Hl0 & Hp0 & Hu0 & Hc0).
  assert (w1 = spawn (AwaitToken uploader k target) w0) as Hw1.
  { unfold w1. rewrite (step_upload_one P w uploader up f t config Hup).
    unfold upload.
    change (key_of (new_upload P (f, t))) with (make_key P f t). rewrite Hw0.
    rewrite Hs. unfold truthy. rewrite (bool_decide_true (presignedUrl config ≠ "")) by done.
    done. }
  assert (pending w1 = (pending w ++ [AwaitToken uploader k target])%list) as Hp1
    by (by rewrite Hw1; simpl; rewrite Hp0).
  assert (pending w1 !! n = Some (AwaitToken uploader k target)) as Hi.
  { rewrite Hp1. by apply list_lookup_middle. }
  assert (delete n (pending w1) = pending w) as Hdel.
  { rewrite Hp1. unfold n. by rewrite (delete_middle (pending w) []), app_nil_r. }
  split; [done|].
  assert (w2 = spawn (AwaitPut uploader k (target +:+ "?token=" +:+ tok))
                 (settle_at n w1)) as Hw2.
  { unfold w2. by rewrite (settle_pending _ _ _ _ Hi). }
  assert (pending w2
          = (pending w ++ [AwaitPut uploader k (target +:+ "?token=" +:+ tok)])%list)
    as Hp2 by (by rewrite Hw2; simpl; rewrite Hdel).
  split; [done|].
  destruct (put_and_measure w2 (pending w) uploader k
              (target +:+ "?token=" +:+ tok) fileUrl x
              (with_status loading (new_upload P (f, t))) sz Hp2 Hx)
    as (Hl & Hp & Hu); [by rewrite Hw2, Hw1|].
  split; [exact Hl|]. split; [exact Hp|].
  split; [unfold w4; fold n in Hu; by rewrite Hu, Hw2, Hw1|].
  unfold w2'. rewrite (settle_pending _ _ _ _ Hi).
  cbn [resume reject settle_at store pending unhandled default from_option id].
  rewrite Hdel.
  unfold status_of, k. rewrite Hw1. cbn [spawn store unhandled].
  rewrite Hl0, Hu0. done.
Qed.

Lemma proxy_upload_from_submission_to_url_witness :
  let w0 := step demo init (UploaderEffect "chat" None proxy_config) in
  let w1 := step demo w0 (UploadFiles "chat" (Some [(photo, 1000%Z)]) proxy_config) in
  let w2 := settle 0 (Token (Resolved "secret")) w1 in
  let w4 := settle 0 (ImageSize (Resolved (640, 480)%Z))
              (settle 0 (ok_200 "https://cdn.example/photo.png") w2) in
  pending w2
  = [AwaitPut "chat" photo_key
       "https://proxy.example/~zod/1000-photo.png?token=secret"]
  ∧ lookup_file (store w4) "chat" photo_key
    = Some {| file := Some photo; key := Some photo_key; status := Some success;
              url := "https://cdn.example/photo.png"; size := (640, 480)%Z;
              errorMessage := None |}
  ∧ unhandled (settle 0 (Token (Rejected "forbidden")) w1) = ["forbidden"].
Proof.
  intros w0 w1 w2 w4.
  assert (∃ up, uploaders (store w0) !! "chat" = Some up)
    as (up & Hup) by (eexists; vm_compute; reflexivity).
  assert (presignedUrl proxy_config ≠ "") as Hurl by discriminate.
  destruct (proxy_upload_from_submission_to_url demo w0 "chat" up photo 1000%Z
              proxy_config (match ok_200 "https://cdn.example/photo.png" with
                            | Put x => x
                            | _ => {| put_response := Rejected ""; get_json := Rejected "" |}
                            end)
              (640, 480)%Z "secret" "https://cdn.example/photo.png" "forbidden"
              Hup eq_refl Hurl eq_refl)
    as (_ & Hp & Hl & _ & _ & _ & _ & Hu).
  split; [exact Hp|]. split; [exact Hl|exact Hu].
Defined.

(** ** The [hasCredentials] cell *)

(** X21: the [hasCredentials] cell of [useClient] is only ever set:
    once it holds [true] it holds [true] after every further render,
    whatever credentials and configuration the renders see. *)
Theorem hasCredentials_is_never_unset (P : Platform)
    (renders : list (option StorageCredentials * StorageConfiguration))
    (h : ClientHook) (w : World) :
  hasCredentials h = true →
  hasCredentials (foldl (λ hw x, client_pass P x.1 x.2 hw) (h, w) renders).1 = true.
Proof.
  revert h w. induction renders as [|[creds configuration] l IH]; intros h w Hh;
    [done|].
  simpl. destruct (client_pass P creds configuration (h, w)) as [h' w'] eqn:E.
  apply IH. unfold client_pass, useClient_effects in E. simpl in E.
  injection E as <- _. simpl. rewrite Hh. by case_match.
Qed.

Lemma hasCredentials_is_never_unset_witness :
  hasCredentials
    (foldl (λ hw x, client_pass demo x.1 x.2 hw)
       (client_pass demo (Some creds_a) s3_config (mount_client, init))
       [(None, s3_config); (Some creds_b, proxy_config)]).1 = true.
Proof.
  apply (hasCredentials_is_never_unset demo
           [(None, s3_config); (Some creds_b, proxy_config)]
           (client_pass demo (Some creds_a) s3_config (mount_client, init)).1
           (client_pass demo (Some creds_a) s3_config (mount_client, init)).2).
  vm_compute. reflexivity.
Defined.

(** ** The client as an object *)

Lemma client_id_step (P : Platform) (w : World) (e : Event) (c : S3Client) :
  client (store w) = Some c →
  ∃ c', client (store (step P w e)) = Some c' ∧ client_id c ≤ client_id c'.
Proof.
  intros Hc.
  assert ((∃ creds rgn, e = CreateClient creds rgn)
          ∨ ∀ creds rgn, e ≠ CreateClient creds rgn) as [(creds & rgn & ->)|Hne]
    by (destruct e; eauto).
  - simpl. unfold createClient, new_client_id.
    destruct (new_URL P _); simpl; [|by eauto].
    rewrite Hc. eexists. split; [done|]. simpl. lia.
  - rewrite step_client by done. eauto.
Qed.

Lemma client_id_run (P : Platform) (w : World) (es : list Event) (c : S3Client) :
  client (store w) = Some c →
  ∃ c', client (store (run P w es)) = Some c' ∧ client_id c ≤ client_id c'.
Proof.
  revert w c. induction es as [|e es IH]; intros w c Hc; [by eauto|].
  destruct (client_id_step P w e c Hc) as (c1 & Hc1 & Hle).
  destruct (IH (step P w e) c1 Hc1) as (c' & Hc' & Hle').
  exists c'. split; [exact Hc'|lia].
Qed.

(** X22: every call of [createClient] that does not raise puts a new
    object in the slot, also when it is given the credentials and the
    region of the client that is there: the client in the slot
    afterwards is not the one that was there at the call, and after any
    further events the client in the slot is still not that one. *)
Theorem createClient_builds_a_new_object (P : Platform) (creds : StorageCredentials)
    (rgn : string) (w w' : World) (es : list Event) :
  createClient P creds rgn w = Ok w' →
  (client_id <$> client (store w')) ≠ (client_id <$> client (store w))
  ∧ ∃ c', client (store (run P w' es)) = Some c'
      ∧ ∀ c, client (store w) = Some c → client_id c < client_id c'.
Proof.
  unfold createClient, new_client_id. destruct (new_URL P _) as [e|]; [|done].
  intros [= <-]. split.
  - simpl. destruct (client (store w)) as [c|]; simpl; [|done].
    intros [= H]. lia.
  - set (cl := {| client_id := match client (store w) with
                                | Some c => S (client_id c)
                                | None => 0
                                end;
                   client_protocol := slice_0_m1 (protocol e);
                   client_hostname := host e;
                   client_path := or_else (pathname e) "/";
                   client_region := or_else rgn "us-east-1";
                   client_credentials := creds;
                   forcePathStyle := true |}).
    destruct (client_id_run P (publish (with_client cl (store w)) w) es cl eq_refl)
      as (c' & Hc' & Hle).
    exists c'. split; [exact Hc'|]. intros c Hc. unfold cl in Hle. simpl in Hle.
    rewrite Hc in Hle. lia.
Qed.

Lemma createClient_builds_a_new_object_witness :
  let w := step demo init (CreateClient creds_a "") in
  let w' := step demo w (CreateClient creds_a "") in
  (client_id <$> client (store w')) ≠ (client_id <$> client (store w))
  ∧ (client_credentials <$> client (store w'))
    = (client_credentials <$> client (store w)).
Proof.
  intros w w'.
  assert (createClient demo creds_a "" w = Ok w') as H by (vm_compute; reflexivity).
  split; [|vm_compute; reflexivity].
  exact (proj1 (createClient_builds_a_new_object demo creds_a "" w w' [] H)).
Defined.
